(** * Changelog maintenance of [fetch_and_translate.py]

    A shallow embedding of the changelog helpers ([parse_changelog],
    [build_changelog]), of the trimming step of [main], and of the diff helper
    ([build_diff_markdown]) together with the part of CPython's [difflib]
    that [unified_diff] runs, followed by the properties of the
    specification that concern them.  The run of [main] on its three files
    and the clean-up at the end of [fetch_github_copilot_docs] are embedded
    too, with further properties of all of these at the end.

    Python's [str] is a sequence of Unicode code points: it is modelled as
    [list N], one number per code point. *)

From stdpp Require Import base list gmap sorting strings.
From Stdlib Require Import NArith ZArith Lia Ascii DecimalString.

Local Open Scope N_scope.
Local Open Scope nat_scope.

(** ** The [str] methods the program calls *)

Module PyStr.

Abbreviation str := (list N).

(** An ASCII literal as a [str]. *)
Definition of_ascii (s : string) : str :=
  N_of_ascii <$> String.list_ascii_of_string s.

Definition LF : N := 10%N.
Definition CR : N := 13%N.

(** [str.isspace] on one code point: the code points CPython's
    [Py_UNICODE_ISSPACE] accepts. *)
Definition isspace (c : N) : bool :=
  ((9 <=? c) && (c <=? 13) || (28 <=? c) && (c <=? 32)
   || (c =? 133) || (c =? 160) || (c =? 5760)
   || (8192 <=? c) && (c <=? 8202)
   || (c =? 8232) || (c =? 8233) || (c =? 8239) || (c =? 8287)
   || (c =? 12288))%N.

(** The line boundaries of [str.splitlines], the pair CR LF apart. *)
Definition is_linebreak (c : N) : bool :=
  ((10 <=? c) && (c <=? 13) || (28 <=? c) && (c <=? 30)
   || (c =? 133) || (c =? 8232) || (c =? 8233))%N.

(** [s.startswith(prefix)] *)
Fixpoint startswith (s prefix : str) : bool :=
  match prefix, s with
  | [], _ => true
  | _ :: _, [] => false
  | p :: prefix', c :: s' => (c =? p)%N && startswith s' prefix'
  end.

(** [s.endswith(suffix)] *)
Definition endswith (s suffix : str) : bool :=
  startswith (rev s) (rev suffix).

(** [s.find(sub)]: the lowest index at which [sub] occurs; Python's [-1]
    is [None]. *)
Fixpoint find_from (i : nat) (s sub : str) : option nat :=
  if startswith s sub then Some i
  else match s with
       | [] => None
       | _ :: s' => find_from (S i) s' sub
       end.

Definition find (s sub : str) : option nat := find_from 0 s sub.

(** [sub in s] *)
Definition contains (s sub : str) : bool :=
  match find s sub with Some _ => true | None => false end.

(** [s.split(sep)] for a non-empty [sep]: cut at the occurrences of [sep]
    met from left to right.  Every cut removes at least one code point, so
    [S (length s)] rounds are never used up. *)
Fixpoint split_fuel (fuel : nat) (s sep : str) : list str :=
  match fuel with
  | 0 => [s]
  | S fuel' =>
      match find s sep with
      | None => [s]
      | Some i => take i s :: split_fuel fuel' (drop (i + length sep) s) sep
      end
  end.

Definition split (s sep : str) : list str :=
  split_fuel (S (length s)) s sep.

(** [sep.join(parts)] *)
Fixpoint join (sep : str) (parts : list str) : str :=
  match parts with
  | [] => []
  | x :: parts' =>
      match parts' with
      | [] => x
      | _ :: _ => x ++ sep ++ join sep parts'
      end
  end.

(** [s.lstrip()], [s.rstrip()], [s.strip()] *)
Fixpoint lstrip (s : str) : str :=
  match s with
  | [] => []
  | c :: s' => if isspace c then lstrip s' else s
  end.

Definition rstrip (s : str) : str := rev (lstrip (rev s)).

Definition strip (s : str) : str := rstrip (lstrip s).

(** [s.splitlines(keepends=True)]; [cur] is the line being read, last
    code point first. *)
Fixpoint splitlines_from (cur : str) (s : str) : list str :=
  match s with
  | [] => match cur with [] => [] | _ :: _ => [rev cur] end
  | c :: s' =>
      if (c =? CR)%N then
        match s' with
        | d :: s'' =>
            if (d =? LF)%N then rev (d :: c :: cur) :: splitlines_from [] s''
            else rev (c :: cur) :: splitlines_from [] s'
        | [] => [rev (c :: cur)]
        end
      else if is_linebreak c then rev (c :: cur) :: splitlines_from [] s'
      else splitlines_from (c :: cur) s'
  end.

Definition splitlines (s : str) : list str := splitlines_from [] s.

(** ['{}'.format(n)] for a non-negative integer. *)
Definition format_nat (n : nat) : str :=
  of_ascii (NilEmpty.string_of_uint (Nat.to_uint n)).

End PyStr.

Import PyStr.

(** ** Configuration constants *)

Definition CHANGELOG_HEADER : str :=
  Eval cbv in
    (of_ascii "###### tags: `ai` `gemini` `copilot`" ++ [LF; LF]
     ++ of_ascii "# Gemini CLI & GitHub Copilot CLI "
     ++ [25351; 20196; 26356; 26032]%N
     ++ of_ascii " Changelog" ++ [LF; LF]).

Definition ENTRY_SEPARATOR : str :=
  Eval cbv in (LF :: of_ascii "---" ++ [LF; LF]).

(** The literals of [parse_changelog]. *)
Definition TAGS_PREFIX : str := Eval cbv in (of_ascii "###### tags").
Definition ENTRY_START : str := Eval cbv in (LF :: of_ascii "## ").
Definition ENTRY_MARK : str := Eval cbv in (of_ascii "## ").

(** ** Changelog helpers *)

(** The test of the list comprehension: [e.strip().startswith("## ")]. *)
Definition is_entry (e : str) : bool := startswith (strip e) ENTRY_MARK.

(** The common tail of [parse_changelog]: split the body and keep the
    chunks that are entries. *)
Definition parse_body (body : str) : list str :=
  let raw_entries := split body ENTRY_SEPARATOR in
  List.filter is_entry raw_entries.

Definition parse_changelog (content : str) : str * list str :=
  if startswith content TAGS_PREFIX then
    match find content ENTRY_START with
    | None => (content, [])
    | Some idx =>
        let header := take (idx + 1) content in
        let body := drop (idx + 1) content in
        (header, parse_body body)
    end
  else
    let header := CHANGELOG_HEADER in
    let body := content in
    (header, parse_body body).

Definition build_changelog (header : str) (entries : list str) : str :=
  match entries with
  | [] => header
  | _ :: _ => header ++ join ENTRY_SEPARATOR entries ++ ENTRY_SEPARATOR
  end.

(** ** The changelog step of [main] *)

(** [entries = [new_entry] + entries], then the slice
    [entries[:CHANGELOG_MAX_ENTRIES]] under its guard.  The maximum is a
    Python [int] read from the environment, so any integer. *)
Definition update_entries (max_entries : Z) (new_entry : str)
    (entries : list str) : list str :=
  let entries := new_entry :: entries in
  if (0 <? max_entries)%Z then take (Z.to_nat max_entries) entries
  else entries.

(** What step 4 writes to the changelog file, given the file's content
    ([None] when the file does not exist). *)
Definition update_changelog (max_entries : Z) (file : option str)
    (new_entry : str) : str :=
  let existing := match file with Some text => text | None => [] end in
  let '(header, entries) := parse_changelog existing in
  let entries := update_entries max_entries new_entry entries in
  build_changelog
    (match existing with [] => CHANGELOG_HEADER | _ :: _ => header end)
    entries.

(** ** [difflib]: the code [unified_diff] runs

    [build_diff_markdown] calls [difflib.unified_diff], which builds
    [SequenceMatcher(None, a, b)] and reads its grouped opcodes.  The
    definitions below follow [Lib/difflib.py] of CPython 3.11 for that
    call: [isjunk] is [None] and [autojunk] is [True].  Indices are
    natural numbers; a match is the triple [(i, j, k)] of [Match]. *)

Module Difflib.

Inductive tag := Replace | Delete | Insert | Equal.

#[global] Instance tag_eq_dec : EqDecision tag.
Proof. solve_decision. Defined.

Definition is_equal (t : tag) : bool :=
  match t with Equal => true | _ => false end.

Abbreviation block := (nat * nat * nat)%type.
Abbreviation region := (nat * nat * nat * nat)%type.
Abbreviation opcode := (tag * nat * nat * nat * nat)%type.

(** The order of Python tuples on triples, used by [list.sort]. *)
Definition block_leb (x y : block) : bool :=
  let '(i1, j1, k1) := x in
  let '(i2, j2, k2) := y in
  (i1 <? i2) || (i1 =? i2) && ((j1 <? j2) || (j1 =? j2) && (k1 <=? k2)).

Definition block_le (x y : block) : Prop := block_leb x y = true.

#[global] Instance block_le_dec : RelDecision block_le :=
  λ x y, decide (block_leb x y = true).

Section SequenceMatcher.
Context `{Countable A}.

Record matcher := Matcher {
  sm_a : list A;
  sm_b : list A;
  b2j : gmap A (list nat);
  bjunk : gset A
}.

(** First loop of [__chain_b]:
    [for i, elt in enumerate(b): b2j.setdefault(elt, []).append(i)]. *)
Fixpoint chain_from (i : nat) (b : list A) (b2j : gmap A (list nat))
    : gmap A (list nat) :=
  match b with
  | [] => b2j
  | elt :: b' =>
      chain_from (S i) b' (<[elt := default [] (b2j !! elt) ++ [i]]> b2j)
  end.

(** [__chain_b] without a junk test: no element is junk, and with
    [autojunk] the elements that occur more than [n // 100 + 1] times
    in a [b] of at least 200 elements are deleted from [b2j]. *)
Definition chain_b (b : list A) : gmap A (list nat) :=
  let b2j := chain_from 0 b ∅ in
  let n := length b in
  if 200 <=? n then
    let ntest := n / 100 + 1 in
    filter (λ kv : A * list nat, length kv.2 ≤ ntest) b2j
  else b2j.

Definition SequenceMatcher (a b : list A) : matcher :=
  {| sm_a := a; sm_b := b; b2j := chain_b b; bjunk := ∅ |}.

(** [a[i] == b[j]], both indices being in range where it is asked. *)
Definition same_at (sm : matcher) (i j : nat) : bool :=
  match sm_a sm !! i, sm_b sm !! j with
  | Some x, Some y => bool_decide (x = y)
  | _, _ => false
  end.

(** [isbjunk(b[j])] *)
Definition junk_at (sm : matcher) (j : nat) : bool :=
  match sm_b sm !! j with
  | Some y => bool_decide (y ∈ bjunk sm)
  | None => false
  end.

(** [j2len.get(j-1, 0)]; no key of [j2len] is negative. *)
Definition j2lenget (j2len : gmap nat nat) (j : nat) : nat :=
  match j with
  | 0 => 0
  | S j' => default 0 (j2len !! j')
  end.

(** The loop [for j in b2j.get(a[i], nothing)] of [find_longest_match];
    [i - k + 1] is written [i + 1 - k], [k] being at most [i + 1]. *)
Fixpoint scan_row (blo bhi i : nat) (j2len : gmap nat nat)
    (js : list nat) (newj2len : gmap nat nat) (best : block)
    : gmap nat nat * block :=
  match js with
  | [] => (newj2len, best)
  | j :: js' =>
      if j <? blo then scan_row blo bhi i j2len js' newj2len best
      else if bhi <=? j then (newj2len, best)
      else
        let k := j2lenget j2len j + 1 in
        let newj2len := <[j := k]> newj2len in
        let best :=
          if best.2 <? k then (i + 1 - k, j + 1 - k, k) else best in
        scan_row blo bhi i j2len js' newj2len best
  end.

(** The loop [for i in range(alo, ahi)]. *)
Fixpoint scan_rows (sm : matcher) (blo bhi : nat) (rows : list nat)
    (j2len : gmap nat nat) (best : block) : block :=
  match rows with
  | [] => best
  | i :: rows' =>
      let js :=
        match sm_a sm !! i with
        | Some elt => default [] (b2j sm !! elt)
        | None => []
        end in
      let '(newj2len, best) := scan_row blo bhi i j2len js ∅ best in
      scan_rows sm blo bhi rows' newj2len best
  end.

(** [while besti > alo and bestj > blo and <junk test on b[bestj-1]>
    and a[besti-1] == b[bestj-1]]; [junk] tells which of the two
    loops it is. *)
Fixpoint extend_left (sm : matcher) (junk : bool) (alo blo : nat)
    (besti bestj bestsize : nat) {struct besti} : block :=
  match besti, bestj with
  | S i', S j' =>
      if (alo <? besti) && (blo <? bestj)
         && bool_decide (junk_at sm j' = junk) && same_at sm i' j'
      then extend_left sm junk alo blo i' j' (S bestsize)
      else (besti, bestj, bestsize)
  | _, _ => (besti, bestj, bestsize)
  end.

(** [while besti+bestsize < ahi and bestj+bestsize < bhi and <junk test
    on b[bestj+bestsize]> and a[besti+bestsize] == b[bestj+bestsize]];
    it runs at most [ahi - (besti + bestsize)] times. *)
Fixpoint extend_right (fuel : nat) (sm : matcher) (junk : bool)
    (ahi bhi : nat) (besti bestj bestsize : nat) : nat :=
  match fuel with
  | 0 => bestsize
  | S fuel' =>
      if (besti + bestsize <? ahi) && (bestj + bestsize <? bhi)
         && bool_decide (junk_at sm (bestj + bestsize) = junk)
         && same_at sm (besti + bestsize) (bestj + bestsize)
      then extend_right fuel' sm junk ahi bhi besti bestj (S bestsize)
      else bestsize
  end.

Definition find_longest_match (sm : matcher) (alo ahi blo bhi : nat)
    : block :=
  let best :=
    scan_rows sm blo bhi (seq alo (ahi - alo)) ∅ (alo, blo, 0) in
  let '(besti, bestj, bestsize) :=
    extend_left sm false alo blo best.1.1 best.1.2 best.2 in
  let bestsize :=
    extend_right (ahi - (besti + bestsize)) sm false ahi bhi
      besti bestj bestsize in
  let '(besti, bestj, bestsize) :=
    extend_left sm true alo blo besti bestj bestsize in
  let bestsize :=
    extend_right (ahi - (besti + bestsize)) sm true ahi bhi
      besti bestj bestsize in
  (besti, bestj, bestsize).

(** The [while queue] loop of [get_matching_blocks].  The head of
    [queue] is the element [queue.pop()] removes.  [None] when [fuel]
    rounds do not empty the queue. *)
Fixpoint matching_loop (fuel : nat) (sm : matcher) (queue : list region)
    (matching_blocks : list block) : option (list block) :=
  match queue with
  | [] => Some matching_blocks
  | (alo, ahi, blo, bhi) :: queue =>
      match fuel with
      | 0 => None
      | S fuel' =>
          let x := find_longest_match sm alo ahi blo bhi in
          let '(i, j, k) := x in
          if k =? 0 then matching_loop fuel' sm queue matching_blocks
          else
            let matching_blocks := matching_blocks ++ [x] in
            let queue :=
              if (alo <? i) && (blo <? j)
              then (alo, i, blo, j) :: queue else queue in
            let queue :=
              if (i + k <? ahi) && (j + k <? bhi)
              then (i + k, ahi, j + k, bhi) :: queue else queue in
            matching_loop fuel' sm queue matching_blocks
      end
  end.

(** The loop that collapses adjacent blocks; returns the block still
    held in [(i1, j1, k1)] and [non_adjacent]. *)
Fixpoint collapse (i1 j1 k1 : nat) (blocks non_adjacent : list block)
    : block * list block :=
  match blocks with
  | [] => ((i1, j1, k1), non_adjacent)
  | (i2, j2, k2) :: blocks' =>
      if (i1 + k1 =? i2) && (j1 + k1 =? j2)
      then collapse i1 j1 (k1 + k2) blocks' non_adjacent
      else
        collapse i2 j2 k2 blocks'
          (if k1 =? 0 then non_adjacent
           else non_adjacent ++ [(i1, j1, k1)])
  end.

(** Every round of the loop takes a region of [a] and leaves regions
    that are shorter by the match found in total, so
    [2 * len(a) + 1] rounds empty the queue. *)
Definition get_matching_blocks (sm : matcher) : option (list block) :=
  let la := length (sm_a sm) in
  let lb := length (sm_b sm) in
  matching_blocks ← matching_loop (2 * la + 1) sm [(0, la, 0, lb)] [];
  let matching_blocks := merge_sort block_le matching_blocks in
  let '((i1, j1, k1), non_adjacent) := collapse 0 0 0 matching_blocks [] in
  let non_adjacent :=
    if k1 =? 0 then non_adjacent else non_adjacent ++ [(i1, j1, k1)] in
  Some (non_adjacent ++ [(la, lb, 0)]).

(** The loop of [get_opcodes] over the matching blocks. *)
Fixpoint opcodes_from (i j : nat) (blocks : list block) : list opcode :=
  match blocks with
  | [] => []
  | (ai, bj, size) :: blocks' =>
      let tag :=
        if (i <? ai) && (j <? bj) then Some Replace
        else if i <? ai then Some Delete
        else if j <? bj then Some Insert
        else None in
      match tag with
      | Some t => [(t, i, ai, j, bj)]
      | None => []
      end
      ++ (if size =? 0 then []
          else [(Equal, ai, ai + size, bj, bj + size)])
      ++ opcodes_from (ai + size) (bj + size) blocks'
  end.

Definition get_opcodes (sm : matcher) : option (list opcode) :=
  opcodes_from 0 0 <$> get_matching_blocks sm.

(** [codes[0]] and [codes[-1]] of [get_grouped_opcodes] cut down to
    [n] lines of context. *)
Definition fix_first (n : nat) (codes : list opcode) : list opcode :=
  match codes with
  | (Equal, i1, i2, j1, j2) :: codes' =>
      (Equal, i1 `max` (i2 - n), i2, j1 `max` (j2 - n), j2) :: codes'
  | _ => codes
  end.

Definition fix_last (n : nat) (codes : list opcode) : list opcode :=
  match last codes with
  | Some (Equal, i1, i2, j1, j2) =>
      removelast codes
      ++ [(Equal, i1, i2 `min` (i1 + n), j1, j2 `min` (j1 + n))]
  | _ => codes
  end.

(** The grouping loop; the result lists the groups in the order the
    generator yields them. *)
Fixpoint group_from (n : nat) (codes group : list opcode)
    : list (list opcode) :=
  match codes with
  | [] =>
      match group with
      | [] => []
      | [(Equal, _, _, _, _)] => []
      | _ => [group]
      end
  | (tag, i1, i2, j1, j2) :: codes' =>
      if is_equal tag && (n + n <? i2 - i1) then
        (group ++ [(tag, i1, i2 `min` (i1 + n), j1, j2 `min` (j1 + n))])
        :: group_from n codes'
             [(tag, i1 `max` (i2 - n), i2, j1 `max` (j2 - n), j2)]
      else group_from n codes' (group ++ [(tag, i1, i2, j1, j2)])
  end.

Definition get_grouped_opcodes (sm : matcher) (n : nat)
    : option (list (list opcode)) :=
  codes ← get_opcodes sm;
  let codes :=
    match codes with [] => [(Equal, 0, 1, 0, 1)] | _ :: _ => codes end in
  let codes := fix_first n codes in
  let codes := fix_last n codes in
  Some (group_from n codes []).

End SequenceMatcher.

Arguments matcher A {_ _}.

(** [a[i1:i2]] *)
Definition slice {A} (l : list A) (i1 i2 : nat) : list A :=
  drop i1 (take i2 l).

Definition _format_range_unified (start stop : nat) : str :=
  let beginning := start + 1 in
  let length := stop - start in
  if length =? 1 then format_nat beginning
  else
    let beginning := if length =? 0 then beginning - 1 else beginning in
    format_nat beginning ++ of_ascii "," ++ format_nat length.

(** The lines one opcode yields. *)
Definition opcode_lines (a b : list str) (code : opcode) : list str :=
  let '(tag, i1, i2, j1, j2) := code in
  match tag with
  | Equal => (λ line, of_ascii " " ++ line) <$> slice a i1 i2
  | _ =>
      (match tag with
       | Replace | Delete => (λ line, of_ascii "-" ++ line) <$> slice a i1 i2
       | _ => []
       end)
      ++ (match tag with
          | Replace | Insert =>
              (λ line, of_ascii "+" ++ line) <$> slice b j1 j2
          | _ => []
          end)
  end.

(** The lines of one group: the [@@] line, then the lines of its
    opcodes.  A group is never empty; [first] and [last] default to an
    empty range. *)
Definition group_lines (a b : list str) (lineterm : str)
    (group : list opcode) : list str :=
  let first := default (Equal, 0, 0, 0, 0) (head group) in
  let last := default (Equal, 0, 0, 0, 0) (last group) in
  let file1_range := _format_range_unified first.1.1.1.2 last.1.1.2 in
  let file2_range := _format_range_unified first.1.2 last.2 in
  (of_ascii "@@ -" ++ file1_range ++ of_ascii " +" ++ file2_range
   ++ of_ascii " @@" ++ lineterm)
  :: concat (opcode_lines a b <$> group).

(** The loop over the groups; [started] is the flag of the source. *)
Fixpoint diff_lines (a b : list str) (fromfile tofile lineterm : str)
    (started : bool) (groups : list (list opcode)) : list str :=
  match groups with
  | [] => []
  | group :: groups' =>
      (if started then []
       else [of_ascii "--- " ++ fromfile ++ lineterm;
             of_ascii "+++ " ++ tofile ++ lineterm])
      ++ group_lines a b lineterm group
      ++ diff_lines a b fromfile tofile lineterm true groups'
  end.

(** [list(unified_diff(a, b, fromfile=.., tofile=.., lineterm=..))] with
    the default [n=3] and no file dates. *)
Definition unified_diff (a b : list str) (fromfile tofile lineterm : str)
    : option (list str) :=
  diff_lines a b fromfile tofile lineterm false
    <$> get_grouped_opcodes (SequenceMatcher a b) 3.

End Difflib.

(** ** Diff helper *)

Definition FROMFILE : str := [19978; 19968; 29256]%N.
Definition TOFILE : str := [26412; 27425]%N.

(** The literals of the f-string of [build_diff_markdown]. *)
Definition HEADING : str := Eval cbv in (of_ascii "### ").
Definition FENCE_OPEN : str := Eval cbv in (of_ascii "```diff").
Definition FENCE_CLOSE : str := Eval cbv in (of_ascii "```").

(** [None] stands for a [get_matching_blocks] that runs out of rounds. *)
Definition build_diff_markdown (old new title : str) : option str :=
  let old_lines := splitlines old in
  let new_lines := splitlines new in
  diff ← Difflib.unified_diff old_lines new_lines FROMFILE TOFILE [];
  match diff with
  | [] => Some []
  | _ :: _ =>
      let body := concat diff in
      Some (HEADING ++ title ++ [LF; LF] ++ FENCE_OPEN ++ [LF] ++ body
            ++ [LF] ++ FENCE_CLOSE ++ [LF])
  end.

(** ** Sample data of [test_changelog.py] *)

(** [f"{n:02d}"] *)
Definition format_02d (n : nat) : str :=
  if n <? 10 then of_ascii "0" ++ format_nat n else format_nat n.

(** The text ["（無變更）"] of an unchanged source. *)
Definition NO_CHANGE : str := [65288; 28961; 35722; 26356; 65289]%N.

Definition make_entry (n : nat) : str :=
  of_ascii "## 2026-01-" ++ format_02d n ++ of_ascii " 00:00 UTC" ++ [LF; LF]
  ++ of_ascii "### Google Gemini CLI" ++ [LF; LF] ++ NO_CHANGE ++ [LF; LF]
  ++ of_ascii "### GitHub Copilot CLI" ++ [LF; LF] ++ NO_CHANGE ++ [LF].

Definition make_changelog (num_entries : nat) : str :=
  build_changelog CHANGELOG_HEADER
    ((λ i, make_entry (i + 1)) <$> seq 0 num_entries).

(** ** The run of [main] *)

Definition GEMINI_CLI_URL : str :=
  of_ascii "https://raw.githubusercontent.com/google-gemini/gemini-cli/main/docs/reference/commands.md".
Definition GITHUB_COPILOT_URL : str :=
  of_ascii "https://docs.github.com/en/copilot/reference/cli-command-reference".

(** The titles [main] passes to the diff helper and to the translation. *)
Definition GEMINI_TITLE : str := of_ascii "Google Gemini CLI".
Definition COPILOT_TITLE : str := of_ascii "GitHub Copilot CLI".

(** The note of a first run and the sections of an unchanged source. *)
Definition FIRST_RUN_NOTE : str :=
  [65288; 39318; 27425; 22519; 34892; 65292; 28961; 21069; 27425; 36039;
   26009; 21487; 27604; 36611; 65289]%N.
Definition GEMINI_UNCHANGED : str :=
  of_ascii "### Google Gemini CLI" ++ [LF; LF] ++ NO_CHANGE ++ [LF].
Definition COPILOT_UNCHANGED : str :=
  of_ascii "### GitHub Copilot CLI" ++ [LF; LF] ++ NO_CHANGE ++ [LF].

(** [bool(s)] and [x or y] on strings. *)
Definition truthy (s : str) : bool :=
  match s with [] => false | _ :: _ => true end.

Definition str_or (x y : str) : str := if truthy x then x else y.

(** The entry step 4 builds from the two diff sections. *)
Definition build_new_entry (now_str : str) (is_first_run : bool)
    (diff_gemini diff_copilot : str) : str :=
  let diff_note := if is_first_run then FIRST_RUN_NOTE else [] in
  let diff_sections :=
    str_or diff_gemini GEMINI_UNCHANGED ++ [LF]
    ++ str_or diff_copilot COPILOT_UNCHANGED in
  of_ascii "## " ++ now_str ++ of_ascii " " ++ diff_note ++ [LF; LF]
  ++ diff_sections.

(** The f-string of step 8. *)
Definition output_text (now_str gemini_cli_translated
    github_copilot_translated : str) : str :=
  of_ascii "###### tags: `ai` `gemini` `copilot`" ++ [LF; LF]
  ++ of_ascii "# Gemini CLI & GitHub Copilot CLI "
  ++ [25351; 20196; 21443; 32771]%N ++ [LF; LF]
  ++ of_ascii "> "
  ++ [33258; 21205; 25235; 21462; 20006; 32763; 35695; 65292; 26356; 26032;
      26178; 38291; 65306]%N
  ++ now_str ++ [LF]
  ++ of_ascii ">" ++ [LF]
  ++ of_ascii "> " ++ [21407; 22987; 20358; 28304; 65306]%N ++ [LF]
  ++ of_ascii "> - [Google Gemini CLI commands](" ++ GEMINI_CLI_URL
  ++ of_ascii ")" ++ [LF]
  ++ of_ascii "> - [GitHub Copilot CLI reference](" ++ GITHUB_COPILOT_URL
  ++ of_ascii ")" ++ [LF; LF]
  ++ of_ascii "## " ++ [30446; 37636]%N ++ [LF; LF]
  ++ of_ascii "- [Google Gemini CLI](#Google-Gemini-CLI)" ++ [LF]
  ++ of_ascii "- [GitHub Copilot CLI](#GitHub-Copilot-CLI)" ++ [LF; LF]
  ++ of_ascii "---" ++ [LF; LF]
  ++ of_ascii "## Google Gemini CLI" ++ [LF; LF]
  ++ gemini_cli_translated ++ [LF; LF]
  ++ of_ascii "---" ++ [LF; LF]
  ++ of_ascii "## GitHub Copilot CLI" ++ [LF; LF]
  ++ github_copilot_translated ++ [LF].

(** *** Text files *)

(** The code points UTF-8 has no encoding for: the surrogates, U+D800 to
    U+DFFF.  A Python [str] can hold them. *)
Definition is_surrogate (c : N) : bool := ((55296 <=? c) && (c <=? 57343))%N.

(** [data.encode("utf-8")] does not raise [UnicodeEncodeError]. *)
Definition encodable (data : str) : bool :=
  forallb (λ c, negb (is_surrogate c)) data.

(** What reading in text mode does to the ends of lines (the default
    [newline=None]): CR LF and a CR alone are read as LF. *)
Fixpoint universal_newlines (s : str) : str :=
  match s with
  | [] => []
  | c :: s' =>
      if (c =? CR)%N then
        LF :: match s' with
              | [] => []
              | d :: s'' =>
                  if (d =? LF)%N then universal_newlines s''
                  else universal_newlines s'
              end
      else c :: universal_newlines s'
  end.

(** A file of the run: it does not exist, it holds a content, or it
    holds bytes the program cannot read as such a content. *)
Inductive file (A : Type) :=
  | Missing
  | Holds (content : A)
  | Unreadable.

Arguments Missing {A}.
Arguments Holds {A} content.
Arguments Unreadable {A}.

(** [path.read_text(encoding="utf-8") if path.exists() else None]; the
    outer [None] is the [UnicodeDecodeError] of bytes that are not
    UTF-8.  The content of a text file is the text its bytes decode to,
    before the ends of lines are translated. *)
Definition read_text (f : file str) : option (option str) :=
  match f with
  | Missing => Some None
  | Holds content => Some (Some (universal_newlines content))
  | Unreadable => None
  end.

(** [path.write_text(data, encoding="utf-8")], and likewise
    [open(path, "w", encoding="utf-8")] with [f.write(data)]: the file
    is opened, which empties it, then [data] is encoded and written.
    When [data] cannot be encoded the call raises and the file stays
    empty.  The result is the file and whether the call went through.
    The line separator of the system is taken to be LF, so that nothing
    is translated on the way out. *)
Definition write_text (data : str) : file str * bool :=
  if encodable data then (Holds data, true) else (Holds [], false).

(** *** The files and the surroundings of a run *)

(** The three files.  The program is taken to have the right to open
    them, and the disk to have room.  The cache file holds the JSON text
    of a dict: the model keeps the dict [json.loads] gives.  The run
    looks at the values under two keys only, and at whether the dict has
    any key; a value under another key stands for whatever is there.
    The file is [Unreadable] when [json.loads] raises (an empty file,
    for one) or gives something else than a dict with strings under the
    two keys: the run then ends with an exception before it writes
    anything. *)
Record files := Files {
  cache_file : file (gmap string str);
  changelog_file : file str;
  output_file : file str
}.

(** What a run takes from outside: the environment variables, the clock,
    the answers of the two fetch functions and of the translation
    ([None] when the call raises; a call that returns is taken to
    return a text). *)
Record env := Env {
  GEMINI_API_KEY : str;
  CHANGELOG_MAX_ENTRIES : Z;
  now_str : str;
  fetch_gemini_cli_docs : option str;
  fetch_github_copilot_docs : option str;
  translate_with_gemini : str → str → option str
}.

(** How [main] ends: [sys.exit(code)], an exception, or its return. *)
Inductive outcome :=
  | Exit (code : Z)
  | Raise
  | Return.

(** [None] is an exception. *)
Definition load_cache (fs : files) : option (gmap string str) :=
  match cache_file fs with
  | Missing => Some ∅
  | Holds data => Some data
  | Unreadable => None
  end.

(** [json.dumps(data, ensure_ascii=False, indent=2)] keeps every code
    point of the strings but the control characters, the quote sign and
    the backslash, which it escapes (so no CR is written); the text can
    be encoded exactly if the strings can.  When it cannot,
    [write_text] leaves an empty file, which is no JSON text.  The keys
    of the run are ASCII. *)
Definition save_cache (data : gmap string str) (fs : files) : files * bool :=
  if bool_decide (map_Forall (λ _ text, encodable text = true) data) then
    ({| cache_file := Holds data;
        changelog_file := changelog_file fs;
        output_file := output_file fs |}, true)
  else
    ({| cache_file := Unreadable;
        changelog_file := changelog_file fs;
        output_file := output_file fs |}, false).

(** [cache.get(key, "")] *)
Definition cache_get (cache : gmap string str) (key : string) : str :=
  default [] (cache !! key).

(** The outcome of [main] and the files it leaves; the messages it
    prints are left out.  [None] stands for a diff that runs out of
    rounds. *)
Definition main (e : env) (fs : files) : option (outcome * files) :=
  if negb (truthy (GEMINI_API_KEY e)) then Some (Exit 1, fs)
  else
    match load_cache fs with
    | None => Some (Raise, fs)
    | Some cache =>
    match fetch_gemini_cli_docs e with
    | None => Some (Raise, fs)
    | Some gemini_cli_raw =>
    match fetch_github_copilot_docs e with
    | None => Some (Raise, fs)
    | Some github_copilot_raw =>
        diff_gemini ← build_diff_markdown (cache_get cache "gemini_cli")
                         gemini_cli_raw GEMINI_TITLE;
        diff_copilot ← build_diff_markdown (cache_get cache "github_copilot")
                          github_copilot_raw COPILOT_TITLE;
        let step4 :=
          if truthy diff_gemini || truthy diff_copilot then
            let is_first_run := bool_decide (cache = ∅) in
            let new_entry :=
              build_new_entry (now_str e) is_first_run
                diff_gemini diff_copilot in
            match read_text (changelog_file fs) with
            | None => (fs, false)
            | Some existing =>
                let written :=
                  write_text (update_changelog (CHANGELOG_MAX_ENTRIES e)
                                existing new_entry) in
                ({| cache_file := cache_file fs;
                    changelog_file := written.1;
                    output_file := output_file fs |}, written.2)
            end
          else (fs, true) in
        if negb step4.2 then Some (Raise, step4.1)
        else
          let step5 :=
            save_cache {[ "gemini_cli" := gemini_cli_raw;
                          "github_copilot" := github_copilot_raw ]}
              step4.1 in
          if negb step5.2 then Some (Raise, step5.1)
          else if negb (truthy diff_gemini) && negb (truthy diff_copilot)
          then Some (Return, step5.1)
          else
            match translate_with_gemini e gemini_cli_raw GEMINI_TITLE with
            | None => Some (Raise, step5.1)
            | Some gemini_cli_translated =>
            match
              translate_with_gemini e github_copilot_raw COPILOT_TITLE
            with
            | None => Some (Raise, step5.1)
            | Some github_copilot_translated =>
                let output :=
                  output_text (now_str e) gemini_cli_translated
                    github_copilot_translated in
                let written := write_text output in
                Some (if written.2 then Return else Raise,
                      {| cache_file := cache_file step5.1;
                         changelog_file := changelog_file step5.1;
                         output_file := written.1 |})
            end
            end
    end
    end
    end.

(** ** The clean-up at the end of [fetch_github_copilot_docs] *)

(** What is written for [run] newlines read in a row: the pattern
    [\n{3,}] takes a whole run of three or more and puts two in its
    place; a shorter run is not matched and stays. *)
Definition flush_newlines (run : nat) : str :=
  if 3 <=? run then [LF; LF] else replicate run LF.

(** [re.sub(r"\n{3,}", "\n\n", s)], read from left to right; [run]
    counts the newlines read since the last other code point. *)
Fixpoint sub_newlines (run : nat) (s : str) : str :=
  match s with
  | [] => flush_newlines run
  | c :: s' =>
      if (c =? LF)%N then sub_newlines (S run) s'
      else flush_newlines run ++ c :: sub_newlines 0 s'
  end.

(** The last three statements of the function, from the [lines] the
    loop over the page has collected. *)
Definition clean_content (lines : list str) : str :=
  let content := join [LF] lines in
  let content := sub_newlines 0 content in
  strip content.

(** ** Notions used to state the properties *)

(** The entry separator less its last code point: an entry that ends with
    it runs into the separator written after it. *)
Definition SEPARATOR_HEAD : str := Eval cbv in (LF :: of_ascii "---" ++ [LF]).

(** [sub] occurs in [s] at index [i] and at no lower index. *)
Definition first_occurrence (sub s : str) (i : nat) : Prop :=
  startswith (drop i s) sub = true
  ∧ ∀ j, j < i → startswith (drop j s) sub = false.

(** [sub] occurs nowhere in [s]. *)
Definition absent (sub s : str) : Prop :=
  ∀ j, startswith (drop j s) sub = false.

(** The first separator of [e] followed by a separator is the one that
    follows [e]. *)
Definition delimited (e : str) : Prop :=
  find (e ++ ENTRY_SEPARATOR) ENTRY_SEPARATOR = Some (length e).

(** The entries of the round-trip property as the specification words
    them. *)
Definition well_formed_entry (e : str) : Prop :=
  startswith e ENTRY_MARK = true ∧ contains e ENTRY_SEPARATOR = false.

(** The code points Python counts as white space ([str.isspace], and so
    [str.strip]): U+0009 to U+000D, U+001C to U+0020, U+0085, U+00A0,
    U+1680, U+2000 to U+200A, U+2028, U+2029, U+202F, U+205F and
    U+3000. *)
Definition WHITE_SPACE : list N :=
  [9; 10; 11; 12; 13; 28; 29; 30; 31; 32; 133; 160; 5760;
   8192; 8193; 8194; 8195; 8196; 8197; 8198; 8199; 8200; 8201; 8202;
   8232; 8233; 8239; 8287; 12288]%N.

(** A chunk the parser keeps: white space, then the marker ["## "],
    then text that is not all white space.  These are the chunks [e]
    for which [e.strip()] starts with ["## "]: stripping on the left
    takes the white space before the marker away, and stripping on the
    right leaves the blank of the marker alone only if something other
    than white space follows it. *)
Definition marked (e : str) : Prop :=
  ∃ ws rest,
    e = ws ++ ENTRY_MARK ++ rest
    ∧ Forall (λ c, c ∈ WHITE_SPACE) ws
    ∧ Exists (λ c, c ∉ WHITE_SPACE) rest.

(** [chunks] are the pieces of [body] cut at the separators met from
    left to right: [body] is every piece but the last with a separator
    after it, then the last piece; in a piece followed by a separator
    the separator occurs first where the piece ends; the last piece
    holds no separator. *)
Definition chunks_of (body : str) (chunks : list str) : Prop :=
  ∃ init final,
    chunks = init ++ [final]
    ∧ body = concat ((λ c, c ++ ENTRY_SEPARATOR) <$> init) ++ final
    ∧ Forall (λ c, first_occurrence ENTRY_SEPARATOR (c ++ ENTRY_SEPARATOR)
                     (length c)) init
    ∧ absent ENTRY_SEPARATOR final.

(** ** Notions used to state the properties of the matcher *)

Section MatcherNotions.
Context `{Countable A}.

(** [a[i:i+k] == b[j:j+k]], both slices lying inside their lists. *)
Definition matches (a b : list A) (i j k : nat) : Prop :=
  i + k ≤ length a ∧ j + k ≤ length b
  ∧ take k (drop i a) = take k (drop j b).

(** The block [x] is a match of [a[alo:ahi]] and [b[blo:bhi]]. *)
Definition valid_in (sm : Difflib.matcher A) (alo ahi blo bhi : nat)
    (x : Difflib.block) : Prop :=
  alo ≤ x.1.1 ∧ x.1.1 + x.2 ≤ ahi ∧ blo ≤ x.1.2 ∧ x.1.2 + x.2 ≤ bhi
  ∧ matches (Difflib.sm_a sm) (Difflib.sm_b sm) x.1.1 x.1.2 x.2.

(** Every index [b2j] lists for an element holds that element in [b]. *)
Definition b2j_sound (sm : Difflib.matcher A) : Prop :=
  ∀ x js j, Difflib.b2j sm !! x = Some js → j ∈ js →
            Difflib.sm_b sm !! j = Some x.

(** What [j2len] holds when row [i] is entered: the lengths of matches
    that end on row [i - 1]. *)
Definition j2len_ok (sm : Difflib.matcher A) (alo blo i : nat)
    (j2len : gmap nat nat) : Prop :=
  ∀ j k, j2len !! j = Some k →
    ∃ si sj, 0 < k ∧ si + k = i ∧ sj + k = S j ∧ alo ≤ si ∧ blo ≤ sj
             ∧ matches (Difflib.sm_a sm) (Difflib.sm_b sm) si sj k.

(** The indices, counted from [i], at which [x] stands in [b]. *)
Fixpoint positions_from (i : nat) (x : A) (b : list A) : list nat :=
  match b with
  | [] => []
  | y :: b' =>
      (if decide (y = x) then [i] else []) ++ positions_from (S i) x b'
  end.

(** A block as the region it covers. *)
Definition rect_of_block (x : Difflib.block) : Difflib.region :=
  (x.1.1, x.1.1 + x.2, x.1.2, x.1.2 + x.2).

(** [r1] ends, in [a] and in [b], where [r2] starts or before. *)
Definition before (r1 r2 : Difflib.region) : Prop :=
  r1.1.1.2 ≤ r2.1.1.1 ∧ r1.2 ≤ r2.1.2.

Definition apart (r1 r2 : Difflib.region) : Prop :=
  before r1 r2 ∨ before r2 r1.

(** [s] lies within [r]. *)
Definition inside (s r : Difflib.region) : Prop :=
  r.1.1.1 ≤ s.1.1.1 ∧ s.1.1.2 ≤ r.1.1.2 ∧ r.1.2 ≤ s.1.2 ∧ s.2 ≤ r.2.

Definition region_ok (sm : Difflib.matcher A) (r : Difflib.region) : Prop :=
  r.1.1.1 ≤ r.1.1.2 ∧ r.1.1.2 ≤ length (Difflib.sm_a sm)
  ∧ r.1.2 ≤ r.2 ∧ r.2 ≤ length (Difflib.sm_b sm).

Definition block_ok (sm : Difflib.matcher A) (x : Difflib.block) : Prop :=
  0 < x.2 ∧ matches (Difflib.sm_a sm) (Difflib.sm_b sm) x.1.1 x.1.2 x.2.

(** The rounds the queue can still take: a region of [n] elements of [a]
    takes at most [2 * n + 1]. *)
Definition queue_measure (queue : list Difflib.region) : nat :=
  sum_list ((λ r : Difflib.region, 2 * (r.1.1.2 - r.1.1.1) + 1) <$> queue).

(** The invariant of the [while queue] loop: regions and blocks found
    lie apart from one another, the blocks are matches. *)
Record loop_inv (sm : Difflib.matcher A) (queue : list Difflib.region)
    (blocks : list Difflib.block) : Prop := LoopInv {
  inv_regions : Forall (region_ok sm) queue;
  inv_blocks : Forall (block_ok sm) blocks;
  inv_queue_apart : StronglySorted apart queue;
  inv_blocks_apart : StronglySorted apart (rect_of_block <$> blocks);
  inv_cross : ∀ r x, r ∈ queue → x ∈ blocks → apart r (rect_of_block x)
}.

(** The blocks are matches that follow one another from [(i, j)] on,
    in [a] and in [b]. *)
Fixpoint tiling (a b : list A) (i j : nat) (blocks : list Difflib.block)
    : Prop :=
  match blocks with
  | [] => True
  | x :: blocks' =>
      i ≤ x.1.1 ∧ j ≤ x.1.2 ∧ matches a b x.1.1 x.1.2 x.2
      ∧ tiling a b (x.1.1 + x.2) (x.1.2 + x.2) blocks'
  end.

(** Where a run of blocks that starts at [p] ends. *)
Fixpoint end_of (p : nat * nat) (blocks : list Difflib.block) : nat * nat :=
  match blocks with
  | [] => p
  | x :: blocks' => end_of (x.1.1 + x.2, x.1.2 + x.2) blocks'
  end.

(** An opcode that is not ['equal']. *)
Definition changed (c : Difflib.opcode) : Prop := c.1.1.1.1 ≠ Difflib.Equal.

(** [b[j]] is a key of [b2j]: it was not deleted as popular. *)
Definition kept (sm : Difflib.matcher A) (j : nat) : bool :=
  match Difflib.sm_b sm !! j with
  | Some x => bool_decide (is_Some (Difflib.b2j sm !! x))
  | None => false
  end.

(** The length of the longest run of equal kept elements that ends with
    [a[i]] and [b[j]]. *)
Fixpoint run (sm : Difflib.matcher A) (i j : nat) : nat :=
  if Difflib.same_at sm i j && kept sm j then
    S (match i, j with
       | S i', S j' => run sm i' j'
       | _, _ => 0
       end)
  else 0.

(** What [j2len] holds when row [i] is entered, for the scan of the whole
    of [a] and [b]. *)
Definition row_ok (sm : Difflib.matcher A) (i : nat)
    (j2len : gmap nat nat) : Prop :=
  ∀ j, default 0 (j2len !! j)
       = match i with 0 => 0 | S i' => run sm i' j end.

End MatcherNotions.

(** * Properties *)

(** ** The model on the data of the tests and of the [difflib] docstrings *)

Example split_example :
  split (of_ascii "a--b----c") (of_ascii "--")
  = [of_ascii "a"; of_ascii "b"; []; of_ascii "c"].
Proof. reflexivity. Qed.

Example splitlines_example :
  splitlines (of_ascii "ab" ++ [CR; LF] ++ of_ascii "c" ++ [LF; CR]
              ++ of_ascii "d")
  = [of_ascii "ab" ++ [CR; LF]; of_ascii "c" ++ [LF]; [CR]; of_ascii "d"].
Proof. reflexivity. Qed.

(** [test_parse_fresh_changelog], [test_parse_preserves_order] *)
Example parse_fresh_changelog :
  parse_changelog (make_changelog 3)
  = (CHANGELOG_HEADER, [make_entry 1; make_entry 2; make_entry 3]).
Proof. vm_compute. reflexivity. Qed.

(** [test_trim_oldest_when_over_limit] *)
Example trim_oldest_when_over_limit :
  update_entries 10 (make_entry 99) (parse_changelog (make_changelog 10)).2
  = make_entry 99 :: (make_entry <$> seq 1 9).
Proof. vm_compute. reflexivity. Qed.

(** [test_first_run_creates_header] *)
Example first_run_creates_header :
  update_changelog 10 None (make_entry 1)
  = CHANGELOG_HEADER ++ make_entry 1 ++ ENTRY_SEPARATOR.
Proof. vm_compute. reflexivity. Qed.

Example find_longest_match_example :
  Difflib.find_longest_match
    (Difflib.SequenceMatcher (of_ascii " abcd") (of_ascii "abcd abcd"))
    0 5 0 9
  = (0, 4, 5).
Proof. vm_compute. reflexivity. Qed.

Example get_matching_blocks_example :
  Difflib.get_matching_blocks
    (Difflib.SequenceMatcher (of_ascii "abxcd") (of_ascii "abcd"))
  = Some [(0, 0, 2); (3, 2, 2); (5, 4, 0)].
Proof. vm_compute. reflexivity. Qed.

Example get_opcodes_example :
  Difflib.get_opcodes
    (Difflib.SequenceMatcher (of_ascii "qabxcd") (of_ascii "abycdf"))
  = Some [(Difflib.Delete, 0, 1, 0, 0); (Difflib.Equal, 1, 3, 0, 2);
          (Difflib.Replace, 3, 4, 2, 3); (Difflib.Equal, 4, 6, 3, 5);
          (Difflib.Insert, 6, 6, 5, 6)].
Proof. vm_compute. reflexivity. Qed.

(** With 213 elements in [b], the element that occurs 210 times is
    popular: it is matched only next to the match of the other two. *)
Example autojunk_example :
  Difflib.get_matching_blocks
    (Difflib.SequenceMatcher (replicate 5 1 ++ [2; 3])
       (0 :: replicate 210 1 ++ [2; 3]))
  = Some [(0, 206, 7); (7, 213, 0)].
Proof. vm_compute. reflexivity. Qed.

Example get_grouped_opcodes_example :
  Difflib.get_grouped_opcodes
    (Difflib.SequenceMatcher (seq 1 39)
       (<[30 := 0]> (<[7 := 0]> (seq 1 39)))) 3
  = Some [[(Difflib.Equal, 4, 7, 4, 7); (Difflib.Replace, 7, 8, 7, 8);
           (Difflib.Equal, 8, 11, 8, 11)];
          [(Difflib.Equal, 27, 30, 27, 30); (Difflib.Replace, 30, 31, 30, 31);
           (Difflib.Equal, 31, 34, 31, 34)]].
Proof. vm_compute. reflexivity. Qed.

(** The non-trivial example of the specification:
    [build_diff_markdown("a\nb\n", "a\nc\n", "T")]. *)
Example build_diff_markdown_example :
  build_diff_markdown (of_ascii "a" ++ [LF] ++ of_ascii "b" ++ [LF])
    (of_ascii "a" ++ [LF] ++ of_ascii "c" ++ [LF]) (of_ascii "T")
  = Some (of_ascii "### T" ++ [LF; LF] ++ of_ascii "```diff" ++ [LF]
          ++ of_ascii "--- " ++ FROMFILE ++ of_ascii "+++ " ++ TOFILE
          ++ of_ascii "@@ -1,2 +1,2 @@" ++ of_ascii " a" ++ [LF]
          ++ of_ascii "-b" ++ [LF] ++ of_ascii "+c" ++ [LF]
          ++ [LF] ++ of_ascii "```" ++ [LF]).
Proof. vm_compute. reflexivity. Qed.

(** ** Facts about the [str] methods *)

Section PyStrFacts.

Implicit Types s sub sep prefix r : str.

Lemma startswith_nil s : startswith s [] = true.
Proof. by destruct s. Qed.

Lemma startswith_prefix s prefix :
  startswith s prefix = true ↔ prefix `prefix_of` s.
Proof.
  revert s; induction prefix as [|p prefix IH]; intros s.
  - rewrite startswith_nil. split; [intros _; apply prefix_nil | done].
  - destruct s as [|c s]; simpl.
    + split; [done | intros Hp; by apply prefix_nil_not in Hp].
    + rewrite andb_true_iff, N.eqb_eq, IH. split.
      * intros [-> Hp]. by apply prefix_cons.
      * intros Hp. split.
        -- symmetry. by apply prefix_cons_inv_1 in Hp.
        -- by apply prefix_cons_inv_2 in Hp.
Qed.

Lemma startswith_cons c s prefix :
  startswith (c :: s) (c :: prefix) = startswith s prefix.
Proof. simpl. by rewrite N.eqb_refl. Qed.

Lemma startswith_app s r : startswith (s ++ r) s = true.
Proof. apply startswith_prefix. by apply prefix_app_r. Qed.

Lemma startswith_refl s : startswith s s = true.
Proof. by apply startswith_prefix. Qed.

Lemma startswith_length s prefix :
  startswith s prefix = true → length prefix ≤ length s.
Proof. rewrite startswith_prefix. apply prefix_length. Qed.

(** Only the first [length prefix] code points are looked at. *)
Lemma startswith_app_l s r prefix :
  length prefix ≤ length s → startswith (s ++ r) prefix = startswith s prefix.
Proof.
  revert s; induction prefix as [|p prefix IH]; intros s Hlen.
  - by rewrite !startswith_nil.
  - destruct s as [|c s]; simpl in *; [lia|].
    rewrite IH; [done | lia].
Qed.

Lemma startswith_take s prefix :
  startswith s prefix = true → take (length prefix) s = prefix.
Proof.
  rewrite startswith_prefix. intros [k ->]. by rewrite take_app_length.
Qed.

Lemma startswith_split s prefix :
  startswith s prefix = true → s = prefix ++ drop (length prefix) s.
Proof.
  rewrite startswith_prefix. intros [k ->]. by rewrite drop_app_length.
Qed.

Lemma endswith_app s suffix : endswith (s ++ suffix) suffix = true.
Proof. unfold endswith. rewrite rev_app_distr. apply startswith_app. Qed.

Lemma find_from_nil i0 sub :
  find_from i0 [] sub = if startswith [] sub then Some i0 else None.
Proof. done. Qed.

Lemma find_from_cons i0 c s sub :
  find_from i0 (c :: s) sub =
    if startswith (c :: s) sub then Some i0 else find_from (S i0) s sub.
Proof. done. Qed.

(** [find] returns the first index at which [sub] occurs. *)
Lemma find_from_Some i0 s sub i :
  find_from i0 s sub = Some i →
  ∃ k, i = i0 + k ∧ k ≤ length s ∧ startswith (drop k s) sub = true
       ∧ ∀ j, j < k → startswith (drop j s) sub = false.
Proof.
  revert i0; induction s as [|c s IH]; intros i0.
  - rewrite find_from_nil. destruct (startswith [] sub) eqn:E; [|done].
    intros [= <-]. exists 0. split_and!; [lia | simpl; lia | done |].
    intros j Hj; lia.
  - rewrite find_from_cons. destruct (startswith (c :: s) sub) eqn:E.
    + intros [= <-]. exists 0. split_and!; [lia | simpl; lia | done |].
      intros j Hj; lia.
    + intros (k & -> & Hk & Hs & Hlt)%IH.
      exists (S k). split_and!; [lia | simpl; lia | done |].
      intros [|j] Hj; [done | apply Hlt; lia].
Qed.

Lemma find_from_None i0 s sub :
  find_from i0 s sub = None → ∀ j, startswith (drop j s) sub = false.
Proof.
  revert i0; induction s as [|c s IH]; intros i0.
  - rewrite find_from_nil. destruct (startswith [] sub) eqn:E; [done|].
    intros _ j. by rewrite drop_nil.
  - rewrite find_from_cons. destruct (startswith (c :: s) sub) eqn:E; [done|].
    intros Hn [|j]; [done | by apply (IH (S i0))].
Qed.

Lemma find_from_first i0 s sub k :
  startswith (drop k s) sub = true →
  (∀ j, j < k → startswith (drop j s) sub = false) →
  find_from i0 s sub = Some (i0 + k).
Proof.
  revert i0 k; induction s as [|c s IH]; intros i0 k Hk Hlt.
  - rewrite find_from_nil. rewrite drop_nil in Hk. rewrite Hk.
    destruct k as [|k]; [by rewrite Nat.add_0_r|].
    specialize (Hlt 0 ltac:(lia)). rewrite drop_0 in Hlt. congruence.
  - rewrite find_from_cons. destruct k as [|k].
    + rewrite drop_0 in Hk. rewrite Hk. by rewrite Nat.add_0_r.
    + pose proof (Hlt 0 ltac:(lia)) as H0. rewrite drop_0 in H0. rewrite H0.
      rewrite (IH (S i0) k); [f_equal; lia | done |].
      intros j Hj. apply (Hlt (S j)). lia.
Qed.

Lemma find_Some s sub i :
  find s sub = Some i →
  i ≤ length s ∧ startswith (drop i s) sub = true
  ∧ ∀ j, j < i → startswith (drop j s) sub = false.
Proof.
  intros (k & -> & ? & ? & ?)%find_from_Some. by simpl.
Qed.

Lemma find_None s sub :
  find s sub = None → ∀ j, startswith (drop j s) sub = false.
Proof. apply find_from_None. Qed.

Lemma find_first s sub k :
  startswith (drop k s) sub = true →
  (∀ j, j < k → startswith (drop j s) sub = false) →
  find s sub = Some k.
Proof. intros. by apply (find_from_first 0). Qed.

Lemma find_absent s sub :
  (∀ j, startswith (drop j s) sub = false) → find s sub = None.
Proof.
  intros Hno. destruct (find s sub) as [i|] eqn:E; [|done].
  apply find_Some in E as (_ & Hi & _). by rewrite Hno in Hi.
Qed.

(** An occurrence lies inside the string. *)
Lemma find_Some_bound s sub i :
  find s sub = Some i → i + length sub ≤ length s.
Proof.
  intros (Hi & Hs & _)%find_Some.
  apply startswith_length in Hs. rewrite length_drop in Hs. lia.
Qed.

Lemma find_Some_split s sub i :
  find s sub = Some i →
  s = take i s ++ sub ++ drop (i + length sub) s.
Proof.
  intros (Hi & Hs & _)%find_Some.
  apply startswith_split in Hs. rewrite drop_drop in Hs.
  rewrite <- Hs. by rewrite take_drop.
Qed.

(** The rounds of [split_fuel]: any number above the length of the
    string gives the same chunks. *)
Lemma split_fuel_irrel sep : sep ≠ [] →
  ∀ fuel1 fuel2 s, length s < fuel1 → length s < fuel2 →
    split_fuel fuel1 s sep = split_fuel fuel2 s sep.
Proof.
  intros Hsep. induction fuel1 as [|fuel1 IH]; intros fuel2 s H1 H2; [lia|].
  destruct fuel2 as [|fuel2]; [lia|]. simpl.
  destruct (find s sep) as [i|] eqn:E; [|done].
  f_equal. apply find_Some_bound in E.
  assert (0 < length sep) by (destruct sep; [done | simpl; lia]).
  apply IH; rewrite length_drop; lia.
Qed.

Lemma split_unfold s sep : sep ≠ [] →
  split s sep =
    match find s sep with
    | None => [s]
    | Some i => take i s :: split (drop (i + length sep) s) sep
    end.
Proof.
  intros Hsep. unfold split at 1. simpl.
  destruct (find s sep) as [i|] eqn:E; [|done].
  f_equal. apply find_Some_bound in E.
  assert (0 < length sep) by (destruct sep; [done | simpl; lia]).
  apply split_fuel_irrel; [done | |]; rewrite ?length_drop; lia.
Qed.

Lemma join_cons_sep sep (parts : list str) :
  parts ≠ [] →
  join sep parts ++ sep = concat ((λ e, e ++ sep) <$> parts).
Proof.
  induction parts as [|x parts IH]; [done|]. intros _.
  destruct parts as [|y parts].
  - simpl. by rewrite app_nil_r.
  - change (join sep (x :: y :: parts))
      with (x ++ sep ++ join sep (y :: parts)).
    rewrite fmap_cons, concat_cons, <- IH by done.
    by rewrite <- !app_assoc.
Qed.

Lemma concat_splitlines_from cur s :
  concat (splitlines_from cur s) = rev cur ++ s.
Proof.
  revert cur. induction s as [s IH] using (induction_ltof1 _ (@length N)).
  unfold ltof in IH. intros cur. destruct s as [|c s]; simpl.
  - destruct cur; simpl; by rewrite ?app_nil_r.
  - destruct (c =? CR)%N.
    + destruct s as [|d s]; [simpl; by rewrite app_nil_r|].
      destruct (d =? LF)%N; rewrite concat_cons, IH by (simpl; lia); simpl;
        by rewrite <- ?app_assoc.
    + destruct (is_linebreak c); rewrite ?concat_cons, IH by (simpl; lia);
        simpl; by rewrite <- ?app_assoc.
Qed.

(** [splitlines(keepends=True)] loses nothing. *)
Lemma concat_splitlines s : concat (splitlines s) = s.
Proof. apply concat_splitlines_from. Qed.

End PyStrFacts.

(** ** Facts about the changelog helpers *)

Section ChangelogFacts.

Implicit Types s e body header : str.
Implicit Types entries : list str.

Local Ltac bool_crush :=
  cbn; rewrite ?andb_false_r, ?andb_true_r; cbn; try done.

Lemma separator_nonempty : ENTRY_SEPARATOR ≠ [].
Proof. done. Qed.

Lemma contains_false s sub : contains s sub = false ↔ find s sub = None.
Proof. unfold contains. destruct (find s sub); split; done. Qed.

Lemma endswith_inv s suffix :
  endswith s suffix = true → ∃ s0, s = s0 ++ suffix.
Proof.
  unfold endswith. rewrite startswith_prefix. intros [k Hk].
  exists (rev k). apply (f_equal (@rev N)) in Hk.
  by rewrite rev_involutive, rev_app_distr, rev_involutive in Hk.
Qed.

(** Whether the separator occurs at [j], inside [e] or across its end,
    does not depend on what follows the separator after [e]. *)
Lemma startswith_drop_app e sep rest j :
  j ≤ length e →
  startswith (drop j (e ++ sep ++ rest)) sep
  = startswith (drop j (e ++ sep)) sep.
Proof.
  intros Hj. rewrite app_assoc, !drop_app_le by (rewrite ?length_app; lia).
  apply startswith_app_l. rewrite length_app. lia.
Qed.

Lemma delimited_find e rest :
  delimited e →
  find (e ++ ENTRY_SEPARATOR ++ rest) ENTRY_SEPARATOR = Some (length e).
Proof.
  intros (_ & Hlen & Hlt)%find_Some. apply find_first.
  - rewrite drop_app_length. apply startswith_app.
  - intros j Hj. rewrite startswith_drop_app by lia. by apply Hlt.
Qed.

Lemma split_delimited e rest :
  delimited e →
  split (e ++ ENTRY_SEPARATOR ++ rest) ENTRY_SEPARATOR
  = e :: split rest ENTRY_SEPARATOR.
Proof.
  intros He. rewrite split_unfold by done.
  rewrite (delimited_find e rest He).
  rewrite take_app_length. f_equal.
  by rewrite app_assoc, <- length_app, drop_app_length.
Qed.

Lemma split_entries entries :
  Forall delimited entries →
  split (concat ((λ e, e ++ ENTRY_SEPARATOR) <$> entries)) ENTRY_SEPARATOR
  = entries ++ [[]].
Proof.
  induction 1 as [|e entries He _ IH]; [done|].
  rewrite fmap_cons, concat_cons, <- app_assoc.
  by rewrite split_delimited, IH.
Qed.

Lemma filter_all {A} (f : A → bool) (l : list A) :
  Forall (λ x, f x = true) l → List.filter f l = l.
Proof. induction 1 as [|x l Hx _ IH]; simpl; [done|]. by rewrite Hx, IH. Qed.

Lemma parse_body_entries entries :
  Forall delimited entries →
  Forall (λ e, is_entry e = true) entries →
  parse_body (concat ((λ e, e ++ ENTRY_SEPARATOR) <$> entries)) = entries.
Proof.
  intros Hd He. unfold parse_body. rewrite split_entries by done.
  rewrite List.filter_app, filter_all by done. apply app_nil_r.
Qed.

(** An entry that neither contains the separator nor ends with its
    first five code points is delimited. *)
Lemma delimited_intro e :
  contains e ENTRY_SEPARATOR = false →
  endswith e SEPARATOR_HEAD = false →
  delimited e.
Proof.
  intros Hno%contains_false Hend. apply find_first.
  { rewrite drop_app_length. apply startswith_refl. }
  intros j Hj. rewrite drop_app_le by lia.
  pose proof (find_None _ _ Hno j) as Ht.
  assert (Hsuf : endswith e (drop j e) = true).
  { rewrite <- (take_drop j e) at 1. apply endswith_app. }
  destruct (drop j e) as [|c1 [|c2 [|c3 [|c4 [|c5 [|c6 t]]]]]] eqn:Et.
  - apply (f_equal length) in Et. rewrite length_drop in Et. simpl in Et. lia.
  - bool_crush.
  - bool_crush.
  - bool_crush.
  - bool_crush.
  - cbn. rewrite ?andb_true_r.
    destruct (N.eqb_spec c1 10) as [->|]; [|done].
    destruct (N.eqb_spec c2 45) as [->|]; [|done].
    destruct (N.eqb_spec c3 45) as [->|]; [|done].
    destruct (N.eqb_spec c4 45) as [->|]; [|done].
    destruct (N.eqb_spec c5 10) as [->|]; [|done].
    unfold SEPARATOR_HEAD in Hend. congruence.
  - rewrite startswith_app_l by (simpl; lia). done.
Qed.

(** The marker [ENTRY_START] is first met where the header ends. *)
Lemma find_entry_start header0 body :
  contains (header0 ++ [LF]) ENTRY_START = false →
  startswith body ENTRY_MARK = true →
  find ((header0 ++ [LF]) ++ body) ENTRY_START = Some (length header0).
Proof.
  intros Hno%contains_false Hbody. apply find_first.
  - rewrite <- app_assoc, drop_app_length.
    change (startswith (LF :: body) (LF :: ENTRY_MARK) = true).
    by rewrite startswith_cons.
  - intros j Hj. pose proof (find_None _ _ Hno j) as Ht.
    rewrite drop_app_le by (rewrite length_app; simpl; lia).
    rewrite drop_app_le in Ht |- * by lia.
    destruct (drop j header0) as [|c1 [|c2 [|c3 t]]] eqn:Et.
    + apply (f_equal length) in Et. rewrite length_drop in Et.
      simpl in Et. lia.
    + bool_crush.
    + bool_crush.
    + rewrite startswith_app_l; [done|].
      unfold ENTRY_START. rewrite length_app. simpl. lia.
Qed.

Lemma build_changelog_concat header entries :
  build_changelog header entries
  = header ++ concat ((λ e, e ++ ENTRY_SEPARATOR) <$> entries).
Proof.
  destruct entries as [|e entries]; unfold build_changelog.
  - by rewrite app_nil_r.
  - by rewrite join_cons_sep.
Qed.

(** The round trip under the conditions the parser needs. *)
Lemma roundtrip_core header entries :
  startswith header TAGS_PREFIX = true →
  contains header ENTRY_START = false →
  (entries ≠ [] → endswith header [LF] = true) →
  (∀ e, head entries = Some e → startswith e ENTRY_MARK = true) →
  Forall delimited entries →
  Forall (λ e, is_entry e = true) entries →
  parse_changelog (build_changelog header entries) = (header, entries).
Proof.
  intros Htags Hno Hend Hhead Hd He.
  rewrite build_changelog_concat. unfold parse_changelog.
  assert (Hpre : startswith
    (header ++ concat ((λ e, e ++ ENTRY_SEPARATOR) <$> entries))
    TAGS_PREFIX = true).
  { apply startswith_prefix. apply prefix_app_r.
    by apply startswith_prefix. }
  rewrite Hpre. destruct entries as [|e entries].
  - simpl. rewrite app_nil_r. apply contains_false in Hno. by rewrite Hno.
  - destruct (endswith_inv _ _ (Hend ltac:(done))) as [header0 ->].
    rewrite find_entry_start; [|done|].
    + rewrite Nat.add_1_r.
      replace (S (length header0)) with (length (header0 ++ [LF]))
        by (rewrite length_app; simpl; lia).
      rewrite take_app_length, drop_app_length.
      by rewrite parse_body_entries.
    + rewrite fmap_cons, concat_cons, <- app_assoc.
      apply startswith_prefix. apply prefix_app_r.
      apply startswith_prefix. by apply Hhead.
Qed.

(** ** What a parsed document looks like *)

Lemma startswith_take_ge s prefix n :
  startswith s prefix = true → length prefix ≤ n →
  startswith (take n s) prefix = true.
Proof.
  rewrite !startswith_prefix. intros [k ->] Hn.
  rewrite take_app_ge by done. by apply prefix_app_r.
Qed.

(** The marker is not met inside the prefix ["###### tags"]. *)
Lemma entry_start_after_tags content i :
  startswith content TAGS_PREFIX = true →
  startswith (drop i content) ENTRY_START = true →
  length TAGS_PREFIX ≤ i.
Proof.
  intros Htags Hi. apply startswith_split in Htags. rewrite Htags in Hi.
  destruct (decide (length TAGS_PREFIX ≤ i)) as [|Hlt]; [done|].
  exfalso. revert Hi. generalize (drop (length TAGS_PREFIX) content).
  intros r. simpl in Hlt.
  do 11 (destruct i as [|i]; [by cbn|]). lia.
Qed.

(** The header cut at the first marker: it keeps the prefix, ends with
    the newline of the marker and holds no marker. *)
Lemma parsed_header content i :
  startswith content TAGS_PREFIX = true →
  find content ENTRY_START = Some i →
  startswith (take (i + 1) content) TAGS_PREFIX = true
  ∧ contains (take (i + 1) content) ENTRY_START = false
  ∧ endswith (take (i + 1) content) [LF] = true.
Proof.
  intros Htags Hfind.
  pose proof (find_Some _ _ _ Hfind) as (Hle & Hi & Hlt).
  pose proof (entry_start_after_tags _ _ Htags Hi) as Hge.
  split_and!.
  - apply startswith_take_ge; [done | lia].
  - apply contains_false, find_absent. intros j.
    destruct (startswith (drop j (take (i + 1) content)) ENTRY_START)
      eqn:Hj; [exfalso | done].
    pose proof (startswith_length _ _ Hj) as Hlen.
    rewrite length_drop, length_take in Hlen. simpl in Hlen.
    assert (j < i) as Hji by lia.
    specialize (Hlt j Hji).
    rewrite <- (take_drop (i + 1) content) in Hlt.
    rewrite drop_app_le in Hlt by (rewrite length_take; lia).
    apply startswith_prefix in Hj.
    assert (startswith
      (drop j (take (i + 1) content) ++ drop (i + 1) content)
      ENTRY_START = true) as Hc.
    { apply startswith_prefix. by apply prefix_app_r. }
    congruence.
  - rewrite (find_Some_split _ _ _ Hfind).
    rewrite take_app_ge by (rewrite length_take; lia).
    rewrite length_take.
    replace (i + 1 - i `min` length content) with 1 by lia.
    change (take 1 (ENTRY_START ++ ?r)) with [LF].
    apply endswith_app.
Qed.

(** The chunks of [split]: all but the last are delimited, and the last
    holds no separator. *)
Lemma split_chunks s :
  ∃ chunks c, split s ENTRY_SEPARATOR = chunks ++ [c]
    ∧ Forall delimited chunks ∧ contains c ENTRY_SEPARATOR = false.
Proof.
  induction s as [s IH] using (induction_ltof1 _ (@length N)).
  unfold ltof in IH. rewrite split_unfold by done.
  destruct (find s ENTRY_SEPARATOR) as [i|] eqn:Hfind.
  - pose proof (find_Some_bound _ _ _ Hfind) as Hb. simpl in Hb.
    destruct (IH (drop (i + length ENTRY_SEPARATOR) s))
      as (chunks & c & -> & Hd & Hc).
    { rewrite length_drop. simpl. lia. }
    exists (take i s :: chunks), c. split_and!; [done | | done].
    constructor; [|done].
    pose proof (find_Some _ _ _ Hfind) as (_ & _ & Hlt).
    unfold delimited. rewrite length_take_le by lia.
    apply find_first.
    + rewrite <- (length_take_le s i) at 1 by lia.
      rewrite drop_app_length. apply startswith_refl.
    + intros j Hj. specialize (Hlt j Hj).
      rewrite (find_Some_split _ _ _ Hfind) in Hlt.
      rewrite startswith_drop_app in Hlt; [done|].
      rewrite length_take_le; lia.
  - exists [], s. split_and!; [done | done |].
    by apply contains_false.
Qed.

Lemma Forall_filter {A} (P : A → Prop) (f : A → bool) (l : list A) :
  Forall P l → Forall P (List.filter f l).
Proof.
  induction 1 as [|x l Hx _ IH]; simpl; [done|].
  destruct (f x); [by constructor | done].
Qed.

Lemma Forall_filter_true {A} (f : A → bool) (l : list A) :
  Forall (λ x, f x = true) (List.filter f l).
Proof.
  induction l as [|x l IH]; simpl; [done|].
  destruct (f x) eqn:E; [by constructor | done].
Qed.

(** The entries [parse_body] returns are delimited as soon as the last
    one does not end with the head of the separator. *)
Lemma parse_body_delimited body :
  (∀ e, last (parse_body body) = Some e →
        endswith e SEPARATOR_HEAD = false) →
  Forall delimited (parse_body body).
Proof.
  unfold parse_body.
  destruct (split_chunks body) as (chunks & c & -> & Hd & Hc).
  rewrite List.filter_app. simpl. intros Hlast.
  apply Forall_app. split; [by apply Forall_filter|].
  destruct (is_entry c); [|done].
  constructor; [|done]. apply delimited_intro; [done|].
  apply Hlast. by rewrite last_snoc.
Qed.

End ChangelogFacts.

(** ** The changelog properties of the specification *)

(** C1, as amended.  Round trip: for a header that starts with
    ["###### tags"], holds no ["\n## "] and, when there are entries, ends
    with a newline, and for entries that each start with ["## "], still
    do so after [strip()], hold no separator and do not end with
    ["\n---\n"], [parse_changelog (build_changelog H E)] is [(H, E)]. *)
Theorem roundtrip_well_formed (H : str) (E : list str) :
  startswith H TAGS_PREFIX = true →
  contains H ENTRY_START = false →
  (E ≠ [] → endswith H [LF] = true) →
  Forall (λ e, well_formed_entry e ∧ is_entry e = true
               ∧ endswith e SEPARATOR_HEAD = false) E →
  parse_changelog (build_changelog H E) = (H, E).
Proof.
  intros Htags Hno Hend HE. apply roundtrip_core; try done.
  - intros e He. destruct E as [|e' E]; [done|].
    injection He as ->. by apply Forall_cons in HE as [[[? _] _] _].
  - eapply Forall_impl; [exact HE|]. intros e ([_ Hc] & _ & Ht).
    by apply delimited_intro.
  - eapply Forall_impl; [exact HE|]. by intros e (_ & ? & _).
Qed.

Lemma roundtrip_well_formed_witness :
  parse_changelog
    (build_changelog CHANGELOG_HEADER [make_entry 1; make_entry 2])
  = (CHANGELOG_HEADER, [make_entry 1; make_entry 2]).
Proof.
  apply roundtrip_well_formed.
  - reflexivity.
  - reflexivity.
  - reflexivity.
  - repeat constructor.
Defined.

(** C1 as the specification words it fails.  Each header and entry list
    below meets its conditions and does not come back: a header without
    the tags prefix, one without a final newline, one that holds the
    marker, an entry that ends with ["\n---\n"], and an entry with
    nothing after the marker. *)
Lemma roundtrip_counterexample :
  (Forall well_formed_entry [of_ascii "## a"]
   ∧ parse_changelog (build_changelog (of_ascii "# Log" ++ [LF])
                        [of_ascii "## a"])
     ≠ (of_ascii "# Log" ++ [LF], [of_ascii "## a"]))
  ∧ (Forall well_formed_entry [of_ascii "## a"]
     ∧ parse_changelog (build_changelog TAGS_PREFIX [of_ascii "## a"])
       ≠ (TAGS_PREFIX, [of_ascii "## a"]))
  ∧ (Forall well_formed_entry []
     ∧ parse_changelog
         (build_changelog (TAGS_PREFIX ++ ENTRY_START ++ of_ascii "x") [])
       ≠ (TAGS_PREFIX ++ ENTRY_START ++ of_ascii "x", []))
  ∧ (Forall well_formed_entry [of_ascii "## a" ++ SEPARATOR_HEAD]
     ∧ parse_changelog
         (build_changelog CHANGELOG_HEADER [of_ascii "## a" ++ SEPARATOR_HEAD])
       ≠ (CHANGELOG_HEADER, [of_ascii "## a" ++ SEPARATOR_HEAD]))
  ∧ (Forall well_formed_entry [ENTRY_MARK]
     ∧ parse_changelog (build_changelog CHANGELOG_HEADER [ENTRY_MARK])
       ≠ (CHANGELOG_HEADER, [ENTRY_MARK])).
Proof.
  repeat split; try (repeat constructor; fail);
    intros Heq; vm_compute in Heq; discriminate Heq.
Qed.

(** C2.  Trim correctness: with a positive maximum [N] the updated list
    is the first [N] elements of the list with the new entry in front; with
    [N] entries before, it has length [N], starts with the new entry and
    has lost the last of the old entries; with [N - 1] entries before,
    nothing is lost; with [N = 1] it is the new entry alone. *)
Theorem trim_correct (max_entries : Z) (new_entry : str)
    (entries : list str) :
  (0 < max_entries)%Z →
  let n := Z.to_nat max_entries in
  let result := update_entries max_entries new_entry entries in
  result = take n (new_entry :: entries)
  ∧ (length entries = n →
     length result = n ∧ head result = Some new_entry
     ∧ result = new_entry :: removelast entries)
  ∧ (length entries = n - 1 →
     length result = n ∧ result = new_entry :: entries)
  ∧ (n = 1 → result = [new_entry]).
Proof.
  intros Hpos n result. subst result. unfold update_entries.
  assert ((0 <? max_entries)%Z = true) as -> by lia.
  fold n. assert (0 < n) as Hn by lia.
  destruct n as [|m]; [lia|]. split_and!.
  - done.
  - intros Hlen. split_and!.
    + rewrite length_take. simpl. lia.
    + done.
    + simpl. f_equal. rewrite removelast_firstn_len.
      by rewrite Hlen.
  - intros Hlen. assert (length entries = m) by lia. split.
    + rewrite length_take. simpl. lia.
    + simpl. f_equal. apply take_ge. lia.
  - intros [= ->]. simpl. by rewrite take_0.
Qed.

Lemma trim_correct_witness :
  update_entries 2 (make_entry 3) [make_entry 2; make_entry 1]
  = [make_entry 3; make_entry 2]
  ∧ update_entries 3 (make_entry 3) [make_entry 2; make_entry 1]
    = [make_entry 3; make_entry 2; make_entry 1]
  ∧ update_entries 1 (make_entry 3) [make_entry 2; make_entry 1]
    = [make_entry 3].
Proof.
  split_and!.
  - pose proof (trim_correct 2 (make_entry 3) [make_entry 2; make_entry 1]
                  ltac:(lia)) as (_ & H & _).
    apply (H eq_refl).
  - pose proof (trim_correct 3 (make_entry 3) [make_entry 2; make_entry 1]
                  ltac:(lia)) as (_ & _ & H & _).
    apply (H eq_refl).
  - pose proof (trim_correct 1 (make_entry 3) [make_entry 2; make_entry 1]
                  ltac:(lia)) as (_ & _ & _ & H).
    apply (H eq_refl).
Defined.

(** C3.  Header and body: when the content starts with ["###### tags"]
    and ["\n## "] first occurs at index [i], the header is
    [content[:i+1]], newline included, and the entries are read from the
    body [content[i+1:]]; when it starts with the prefix and the marker is
    absent, the whole content is the header and there are no entries;
    otherwise the header is [CHANGELOG_HEADER] and the whole content is
    the body. *)
Theorem parse_changelog_split (content : str) :
  (∀ i, startswith content TAGS_PREFIX = true →
        first_occurrence ENTRY_START content i →
        parse_changelog content
        = (take (i + 1) content,
           List.filter is_entry
             (split (drop (i + 1) content) ENTRY_SEPARATOR))
        ∧ last (take (i + 1) content) = Some LF)
  ∧ (startswith content TAGS_PREFIX = true →
     absent ENTRY_START content →
     parse_changelog content = (content, []))
  ∧ (startswith content TAGS_PREFIX = false →
     parse_changelog content
     = (CHANGELOG_HEADER,
        List.filter is_entry (split content ENTRY_SEPARATOR))).
Proof.
  unfold parse_changelog, parse_body. split_and!.
  - intros i Htags [Hi Hlt]. rewrite Htags.
    assert (find content ENTRY_START = Some i) as Hfind
      by by apply find_first.
    rewrite Hfind. split; [done|].
    destruct (parsed_header content i Htags Hfind) as (_ & _ & Hend).
    apply endswith_inv in Hend as [h0 ->]. apply last_snoc.
  - intros Htags Habs. rewrite Htags. by rewrite (find_absent _ _ Habs).
  - by intros ->.
Qed.

Lemma parse_changelog_split_witness :
  parse_changelog (TAGS_PREFIX ++ [LF] ++ make_entry 1 ++ ENTRY_SEPARATOR)
  = (TAGS_PREFIX ++ [LF], [make_entry 1])
  ∧ parse_changelog TAGS_PREFIX = (TAGS_PREFIX, [])
  ∧ parse_changelog (make_entry 1 ++ ENTRY_SEPARATOR)
    = (CHANGELOG_HEADER, [make_entry 1]).
Proof.
  split_and!.
  - apply (proj1 (parse_changelog_split
                    (TAGS_PREFIX ++ [LF] ++ make_entry 1 ++ ENTRY_SEPARATOR))
             11); [reflexivity|].
    split; [reflexivity|]. intros j Hj.
    do 11 (destruct j as [|j]; [reflexivity|]). lia.
  - apply (proj1 (proj2 (parse_changelog_split TAGS_PREFIX)));
      [reflexivity|].
    intros j. do 12 (destruct j as [|j]; [reflexivity|]). reflexivity.
  - apply (proj2 (proj2 (parse_changelog_split
                           (make_entry 1 ++ ENTRY_SEPARATOR)))).
    reflexivity.
Defined.

(** C4.  [build_changelog] returns the header alone when there are no
    entries; otherwise the header, the entries joined with the separator,
    and one more separator, so that every entry is followed by one. *)
Theorem build_changelog_shape (header : str) (entries : list str) :
  build_changelog header [] = header
  ∧ (entries ≠ [] →
     build_changelog header entries
     = header ++ join ENTRY_SEPARATOR entries ++ ENTRY_SEPARATOR)
  ∧ build_changelog header entries
    = header ++ concat ((λ e, e ++ ENTRY_SEPARATOR) <$> entries).
Proof.
  split_and!.
  - done.
  - by destruct entries.
  - apply build_changelog_concat.
Qed.

Lemma build_changelog_shape_witness :
  build_changelog CHANGELOG_HEADER [make_entry 1; make_entry 2]
  = CHANGELOG_HEADER
    ++ join ENTRY_SEPARATOR [make_entry 1; make_entry 2] ++ ENTRY_SEPARATOR.
Proof.
  apply (proj1 (proj2 (build_changelog_shape CHANGELOG_HEADER
                         [make_entry 1; make_entry 2]))).
  discriminate.
Defined.

(** [lstrip] stops at the first code point that is no white space. *)
Lemma lstrip_app_nonspace (l : str) c (t : str) :
  isspace c = false → ∃ l', lstrip (l ++ c :: t) = l' ++ c :: t.
Proof.
  intros Hc. induction l as [|x l IH].
  - exists []. simpl. by rewrite Hc.
  - simpl. destruct (isspace x); [done|]. by exists (x :: l).
Qed.

(** [rstrip] keeps everything up to a code point that is no white
    space. *)
Lemma rstrip_app_nonspace (u : str) c (w : str) :
  isspace c = false → ∃ w', rstrip (u ++ c :: w) = u ++ c :: w'.
Proof.
  intros Hc. unfold rstrip.
  rewrite rev_app_distr. cbn [rev]. rewrite <- app_assoc. cbn [app].
  destruct (lstrip_app_nonspace (rev w) c (rev u) Hc) as [l' ->].
  exists (rev l'). rewrite rev_app_distr. cbn [rev].
  by rewrite rev_involutive, <- app_assoc.
Qed.

(** A text that starts with the marker and goes on with anything that
    is not all white space is kept by the parser. *)
Lemma is_entry_mark (r : str) c :
  c ∈ r → isspace c = false → is_entry (ENTRY_MARK ++ r) = true.
Proof.
  intros (r1 & r2 & ->)%list_elem_of_split Hc. unfold is_entry, strip.
  change (lstrip (ENTRY_MARK ++ r1 ++ c :: r2))
    with (ENTRY_MARK ++ r1 ++ c :: r2).
  rewrite (app_assoc ENTRY_MARK r1).
  destruct (rstrip_app_nonspace (ENTRY_MARK ++ r1) c r2 Hc) as [w' ->].
  rewrite <- app_assoc. apply startswith_app.
Qed.

Lemma lstrip_head (s : str) c : head (lstrip s) = Some c → isspace c = false.
Proof.
  induction s as [|x s IH]; [done|]. simpl.
  destruct (isspace x) eqn:E; [done|]. by intros [= <-].
Qed.

Lemma rstrip_last (s : str) c : last (rstrip s) = Some c → isspace c = false.
Proof.
  unfold rstrip. rewrite rev_alt.
  change (rev_append ?l []) with (reverse l). rewrite last_reverse.
  apply lstrip_head.
Qed.

(** What [lstrip] takes away is white space, and what it leaves does
    not start with white space. *)
Lemma lstrip_split (s : str) :
  ∃ ws, s = ws ++ lstrip s ∧ Forall (λ c, isspace c = true) ws.
Proof.
  induction s as [|c s (ws & IH & Hws)]; [by exists []|].
  simpl. destruct (isspace c) eqn:Hc.
  - exists (c :: ws). split; [by rewrite IH at 1 | by constructor].
  - by exists [].
Qed.

Lemma rstrip_split (s : str) :
  ∃ ws, s = rstrip s ++ ws ∧ Forall (λ c, isspace c = true) ws.
Proof.
  unfold rstrip. destruct (lstrip_split (rev s)) as (ws & Hs & Hws).
  exists (rev ws). split.
  - rewrite <- rev_app_distr, <- Hs. by rewrite rev_involutive.
  - apply Forall_forall. intros c Hc. rewrite Forall_forall in Hws.
    apply Hws. apply list_elem_of_In. apply list_elem_of_In in Hc.
    by apply in_rev in Hc.
Qed.

Lemma lstrip_spaces (ws t : str) :
  Forall (λ c, isspace c = true) ws → lstrip (ws ++ t) = lstrip t.
Proof.
  induction 1 as [|c ws Hc _ IH]; [done|]. simpl. by rewrite Hc.
Qed.

(** [isspace] holds of the white-space code points and of no other. *)
Lemma isspace_spec (c : N) : isspace c = true ↔ c ∈ WHITE_SPACE.
Proof.
  unfold isspace, WHITE_SPACE.
  rewrite !orb_true_iff, !andb_true_iff, !N.leb_le, !N.eqb_eq.
  rewrite !elem_of_cons, elem_of_nil. lia.
Qed.

Lemma isspace_false (c : N) : isspace c = false ↔ c ∉ WHITE_SPACE.
Proof.
  rewrite <- isspace_spec. by destruct (isspace c).
Qed.

(** The test of the parser, said without [strip] and [isspace]. *)
Lemma is_entry_marked (e : str) : is_entry e = true ↔ marked e.
Proof.
  split.
  - unfold is_entry, strip. intros Hstart.
    destruct (lstrip_split e) as (ws & He & Hws).
    destruct (rstrip_split (lstrip e)) as (ws2 & Ht & _).
    pose proof (rstrip_last (lstrip e)) as Hlast.
    apply startswith_split in Hstart.
    set (r := drop (length ENTRY_MARK) (rstrip (lstrip e))) in Hstart.
    exists ws, (r ++ ws2). split; [|split].
    + rewrite He at 1. f_equal. rewrite Ht at 1. rewrite Hstart at 1.
      by rewrite <- app_assoc.
    + eapply Forall_impl; [exact Hws|]. intros c. apply isspace_spec.
    + apply Exists_app. left. rewrite Hstart in Hlast.
      destruct r as [|c r _] using rev_ind.
      * by specialize (Hlast 32%N eq_refl).
      * apply Exists_app. right. apply Exists_cons_hd.
        apply isspace_false, Hlast. by rewrite app_assoc, last_snoc.
  - intros (ws & rest & -> & Hws & (c & Hc & Hsp)%Exists_exists).
    unfold is_entry, strip. rewrite lstrip_spaces.
    + apply (is_entry_mark rest c); [done | by apply isspace_false].
    + eapply Forall_impl; [exact Hws|]. intros x. apply isspace_spec.
Qed.

Lemma split_nonempty s sep : sep ≠ [] → split s sep ≠ [].
Proof.
  intros Hsep. rewrite split_unfold by done. by destruct (find s sep).
Qed.

(** [split] cuts the body into its chunks. *)
Lemma split_chunks_of (s : str) : chunks_of s (split s ENTRY_SEPARATOR).
Proof.
  destruct (split_chunks s) as (init & final & Hsplit & Hd & Hc).
  exists init, final. split_and!; [done | | |].
  - revert s Hsplit.
    induction init as [|c init IH]; intros s Hsplit.
    + rewrite split_unfold in Hsplit by done.
      destruct (find s ENTRY_SEPARATOR) as [i|]; [|by injection Hsplit].
      simpl in Hsplit. injection Hsplit as _ Hnil.
      by destruct (split_nonempty (drop (i + 6) s) ENTRY_SEPARATOR).
    + rewrite split_unfold in Hsplit by done.
      destruct (find s ENTRY_SEPARATOR) as [i|] eqn:Hfind.
      * simpl in Hsplit. injection Hsplit as <- Hrest.
        apply Forall_cons in Hd as [_ Hd].
        rewrite fmap_cons, concat_cons, <- !app_assoc.
        rewrite <- (IH Hd _ Hrest).
        by apply find_Some_split.
      * simpl in Hsplit. destruct init; discriminate.
  - eapply Forall_impl; [exact Hd|]. intros c Hdel.
    apply find_Some in Hdel as (_ & Hat & Hlt). by split.
  - intros j. apply contains_false in Hc. by apply find_None.
Qed.

(** C5.  Lenient parsing: [parse_changelog] is defined on every string.
    Its entries are chunks of the body, where the chunks are the pieces
    of the body between the separators (every piece but the last is
    followed by a separator that occurs nowhere earlier, the last piece
    holds none, and together they are the body).  A chunk is kept,
    unchanged and in its place, exactly if it is white space, then
    ["## "], then text that is not all white space - that is, if it
    starts with ["## "] once the white space around it is stripped;
    every other chunk is dropped. *)
Theorem parse_changelog_lenient (content : str) :
  ∃ header chunks,
    parse_changelog content = (header, List.filter is_entry chunks)
    ∧ ((startswith content TAGS_PREFIX = true
        ∧ absent ENTRY_START content ∧ chunks = [])
       ∨ (∃ i, startswith content TAGS_PREFIX = true
               ∧ first_occurrence ENTRY_START content i
               ∧ chunks_of (drop (i + 1) content) chunks)
       ∨ (startswith content TAGS_PREFIX = false
          ∧ chunks_of content chunks))
    ∧ (∀ e, is_entry e = true ↔ marked e)
    ∧ List.filter is_entry chunks `sublist_of` chunks
    ∧ ∀ e, e ∈ List.filter is_entry chunks ↔ e ∈ chunks ∧ marked e.
Proof.
  assert (∀ chunks : list str,
    (∀ e, is_entry e = true ↔ marked e)
    ∧ List.filter is_entry chunks `sublist_of` chunks
    ∧ ∀ e, e ∈ List.filter is_entry chunks ↔ e ∈ chunks ∧ marked e) as Hf.
  { intros chunks. split; [apply is_entry_marked|]. split.
    - induction chunks as [|c chunks IH]; simpl; [done|].
      destruct (is_entry c); [by apply sublist_skip | by apply sublist_cons].
    - intros e. rewrite <- is_entry_marked, !list_elem_of_In.
      apply (List.filter_In is_entry e chunks). }
  unfold parse_changelog, parse_body.
  destruct (startswith content TAGS_PREFIX) eqn:Htags.
  - destruct (find content ENTRY_START) as [i|] eqn:Hfind.
    + eexists _, _. split; [done|]. split; [|apply Hf].
      right; left. exists i. split; [done|]. split.
      * apply find_Some in Hfind as (_ & Hat & Hlt). by split.
      * apply split_chunks_of.
    + exists content, []. split; [done|]. split; [|apply Hf]. left.
      split; [done|]. split; [|done]. intros j. by apply find_None.
  - eexists _, _. split; [done|]. split; [|apply Hf]. right; right.
    split; [done | apply split_chunks_of].
Qed.

(** C6.  Bounded size: after the update the entries are at most the
    maximum when it is positive; a maximum of zero or less keeps every
    entry. *)
Theorem entries_bounded (max_entries : Z) (new_entry : str)
    (entries : list str) :
  ((0 < max_entries)%Z →
   (Z.of_nat (length (update_entries max_entries new_entry entries))
    ≤ max_entries)%Z)
  ∧ ((max_entries ≤ 0)%Z →
     update_entries max_entries new_entry entries = new_entry :: entries).
Proof.
  unfold update_entries. split; intros Hmax.
  - assert ((0 <? max_entries)%Z = true) as -> by lia.
    rewrite length_take. lia.
  - by assert ((0 <? max_entries)%Z = false) as -> by lia.
Qed.

Lemma entries_bounded_witness :
  (Z.of_nat (length (update_entries 2 (make_entry 3)
                       [make_entry 2; make_entry 1])) ≤ 2)%Z
  ∧ update_entries 0 (make_entry 3) [make_entry 2; make_entry 1]
    = [make_entry 3; make_entry 2; make_entry 1]
  ∧ update_entries (-1) (make_entry 3) [make_entry 2; make_entry 1]
    = [make_entry 3; make_entry 2; make_entry 1].
Proof.
  split_and!.
  - apply (proj1 (entries_bounded 2 (make_entry 3)
                    [make_entry 2; make_entry 1])). lia.
  - apply (proj2 (entries_bounded 0 (make_entry 3)
                    [make_entry 2; make_entry 1])). lia.
  - apply (proj2 (entries_bounded (-1) (make_entry 3)
                    [make_entry 2; make_entry 1])). lia.
Defined.

(** C7.  Empty input: [parse_changelog("")] is the default header with
    no entries. *)
Theorem parse_changelog_empty :
  parse_changelog [] = (CHANGELOG_HEADER, []).
Proof. reflexivity. Qed.

(** C10, as amended.  Re-parse stability: when [parse_changelog C] is
    [(H, E)], the first entry of [E], if any, starts with ["## "] and the
    last one does not end with ["\n---\n"], then
    [parse_changelog (build_changelog H E)] is [(H, E)] again. *)
Theorem reparse_stable (C H : str) (E : list str) :
  parse_changelog C = (H, E) →
  (∀ e, head E = Some e → startswith e ENTRY_MARK = true) →
  (∀ e, last E = Some e → endswith e SEPARATOR_HEAD = false) →
  parse_changelog (build_changelog H E) = (H, E).
Proof.
  unfold parse_changelog at 1. intros Hparse Hhead Hlast.
  destruct (startswith C TAGS_PREFIX) eqn:Htags.
  - destruct (find C ENTRY_START) as [i|] eqn:Hfind.
    + injection Hparse as <- <-.
      destruct (parsed_header C i Htags Hfind) as (Hpre & Hno & Hend).
      apply roundtrip_core; try done.
      * by apply parse_body_delimited.
      * apply Forall_filter_true.
    + injection Hparse as <- <-. simpl. unfold parse_changelog.
      by rewrite Htags, Hfind.
  - injection Hparse as <- <-.
    apply roundtrip_core; try done.
    + by apply parse_body_delimited.
    + apply Forall_filter_true.
Qed.

Lemma reparse_stable_witness :
  parse_changelog
    (build_changelog CHANGELOG_HEADER [make_entry 1; make_entry 2])
  = (CHANGELOG_HEADER, [make_entry 1; make_entry 2]).
Proof.
  apply (reparse_stable (make_changelog 2)).
  - reflexivity.
  - intros e [= <-]. reflexivity.
  - intros e [= <-]. reflexivity.
Defined.

(** C10 as worded fails: a first chunk with white space before its
    marker is kept as an entry but hides the end of the header when the
    document is built again, and a last chunk that ends with ["\n---\n"]
    is cut short. *)
Lemma reparse_counterexample :
  (parse_changelog (of_ascii " ## x")
   = (CHANGELOG_HEADER, [of_ascii " ## x"])
   ∧ parse_changelog (build_changelog CHANGELOG_HEADER [of_ascii " ## x"])
     ≠ (CHANGELOG_HEADER, [of_ascii " ## x"]))
  ∧ (parse_changelog (of_ascii "## a" ++ SEPARATOR_HEAD)
     = (CHANGELOG_HEADER, [of_ascii "## a" ++ SEPARATOR_HEAD])
     ∧ parse_changelog
         (build_changelog CHANGELOG_HEADER [of_ascii "## a" ++ SEPARATOR_HEAD])
       ≠ (CHANGELOG_HEADER, [of_ascii "## a" ++ SEPARATOR_HEAD])).
Proof.
  repeat split; try reflexivity;
    intros Heq; vm_compute in Heq; discriminate Heq.
Qed.

(** ** Facts about the matcher of [difflib] *)

Section MatcherFacts.
Context `{Countable A}.
Import Difflib.

Implicit Types a b : list A.
Implicit Types sm : matcher A.

Lemma matches_nil a b i j :
  i ≤ length a → j ≤ length b → matches a b i j 0.
Proof. intros. unfold matches. split_and!; [lia | lia | done]. Qed.

Lemma matches_extend_r a b i j k x :
  matches a b i j k →
  a !! (i + k) = Some x → b !! (j + k) = Some x →
  matches a b i j (S k).
Proof.
  intros (Hi & Hj & Heq) Ha Hb.
  pose proof (lookup_lt_Some _ _ _ Ha). pose proof (lookup_lt_Some _ _ _ Hb).
  split_and!; [lia | lia |].
  rewrite (take_S_r (drop i a) k x) by by rewrite lookup_drop.
  rewrite (take_S_r (drop j b) k x) by by rewrite lookup_drop.
  by rewrite Heq.
Qed.

Lemma matches_extend_l a b i j k x :
  matches a b (S i) (S j) k →
  a !! i = Some x → b !! j = Some x →
  matches a b i j (S k).
Proof.
  intros (Hi & Hj & Heq) Ha Hb.
  split_and!; [lia | lia |].
  rewrite (drop_S a x i Ha), (drop_S b x j Hb). simpl. by rewrite Heq.
Qed.

Lemma matches_one a b i j x :
  a !! i = Some x → b !! j = Some x → matches a b i j 1.
Proof.
  intros Ha Hb.
  pose proof (lookup_lt_Some _ _ _ Ha). pose proof (lookup_lt_Some _ _ _ Hb).
  apply (matches_extend_r a b i j 0 x); rewrite ?Nat.add_0_r; try done.
  apply matches_nil; lia.
Qed.

Lemma matches_app a b i j k1 k2 :
  matches a b i j k1 → matches a b (i + k1) (j + k1) k2 →
  matches a b i j (k1 + k2).
Proof.
  intros (Hi & Hj & Heq) (Hi2 & Hj2 & Heq2).
  split_and!; [lia | lia |].
  rewrite <- !take_take_drop, !drop_drop. by rewrite Heq, Heq2.
Qed.

Lemma same_at_Some sm i j :
  same_at sm i j = true →
  ∃ x, sm_a sm !! i = Some x ∧ sm_b sm !! j = Some x.
Proof.
  unfold same_at. destruct (sm_a sm !! i) as [x|]; [|done].
  destruct (sm_b sm !! j) as [y|]; [|done].
  intros ->%bool_decide_eq_true. by exists y.
Qed.

Lemma j2lenget_cases (j2len : gmap nat nat) j :
  j2lenget j2len j = 0
  ∨ ∃ j' k, j = S j' ∧ j2len !! j' = Some k ∧ j2lenget j2len j = k.
Proof.
  destruct j as [|j']; [by left|]. simpl.
  destruct (j2len !! j') as [k|] eqn:E; [|by left].
  right. by exists j', k.
Qed.

(** One row of the scan keeps [best] a match of the region and records
    in [newj2len] matches that end on that row. *)
Lemma scan_row_sound sm alo ahi blo bhi i x j2len js :
  sm_a sm !! i = Some x →
  (∀ j, j ∈ js → sm_b sm !! j = Some x) →
  alo ≤ i → i < ahi →
  j2len_ok sm alo blo i j2len →
  ∀ newj2len best,
    j2len_ok sm alo blo (S i) newj2len →
    valid_in sm alo ahi blo bhi best →
    j2len_ok sm alo blo (S i) (scan_row blo bhi i j2len js newj2len best).1
    ∧ valid_in sm alo ahi blo bhi
        (scan_row blo bhi i j2len js newj2len best).2.
Proof.
  intros Ha Hjs Halo Hahi Hold.
  induction js as [|j js IH]; intros newj2len best Hnew Hbest; [done|].
  simpl. specialize (IH (λ j' Hj', Hjs j' (list_elem_of_further _ _ _ Hj'))).
  destruct (Nat.ltb_spec j blo) as [|Hblo]; [by apply IH|].
  destruct (Nat.leb_spec bhi j) as [|Hbhi]; [done|].
  pose proof (Hjs j (list_elem_of_here _ _)) as Hb.
  assert (∃ si sj, si + (j2lenget j2len j + 1) = S i
            ∧ sj + (j2lenget j2len j + 1) = S j ∧ alo ≤ si ∧ blo ≤ sj
            ∧ matches (sm_a sm) (sm_b sm) si sj (j2lenget j2len j + 1))
    as (si & sj & Hsi & Hsj & Hsa & Hsb & Hm).
  { destruct (j2lenget_cases j2len j) as [->|(j' & k & -> & Hk & ->)].
    - exists i, j. split_and!; try lia. by apply (matches_one _ _ _ _ x).
    - destruct (Hold j' k Hk) as (si & sj & ? & ? & ? & ? & ? & Hm).
      exists si, sj. split_and!; try lia.
      rewrite Nat.add_1_r. apply (matches_extend_r _ _ _ _ _ x); [done | |].
      + by replace (si + k) with i by lia.
      + by replace (sj + k) with (S j') by lia. }
  apply IH.
  - intros j0 k0. rewrite lookup_insert. case_decide as Hj0.
    + intros [= <-]. subst j0. exists si, sj. split_and!; try done; lia.
    + apply Hnew.
  - destruct (Nat.ltb_spec best.2 (j2lenget j2len j + 1)); [|done].
    replace (i + 1 - (j2lenget j2len j + 1)) with si by lia.
    replace (j + 1 - (j2lenget j2len j + 1)) with sj by lia.
    unfold valid_in. simpl. split_and!; try done; lia.
Qed.

Lemma scan_rows_sound sm alo ahi blo bhi :
  b2j_sound sm →
  ∀ n i j2len best,
    alo ≤ i → i + n ≤ ahi →
    j2len_ok sm alo blo i j2len →
    valid_in sm alo ahi blo bhi best →
    valid_in sm alo ahi blo bhi
      (scan_rows sm blo bhi (seq i n) j2len best).
Proof.
  intros Hb2j. induction n as [|n IH]; intros i j2len best Hi Hn Hj Hbest;
    [done|].
  simpl. destruct (sm_a sm !! i) as [x|] eqn:Ha.
  - pose proof (scan_row_sound sm alo ahi blo bhi i x j2len
      (default [] (b2j sm !! x)) Ha) as Hrow.
    destruct (scan_row blo bhi i j2len (default [] (b2j sm !! x)) ∅ best)
      as [newj2len best'] eqn:Erow.
    destruct (Hrow) with (newj2len := (∅ : gmap nat nat)) (best := best)
      as [Hj' Hbest']; try done; try lia.
    + intros j Hjin. destruct (b2j sm !! x) as [js|] eqn:Ejs; simpl in Hjin.
      * by apply (Hb2j x js j).
      * by apply elem_of_nil in Hjin.
    + rewrite Erow in Hj', Hbest'. simpl in Hj', Hbest'.
      apply IH; try done; lia.
  - simpl. apply IH; try done; lia.
Qed.

Lemma extend_left_valid sm junk alo ahi blo bhi :
  ∀ besti bestj bestsize,
    valid_in sm alo ahi blo bhi (besti, bestj, bestsize) →
    valid_in sm alo ahi blo bhi
      (extend_left sm junk alo blo besti bestj bestsize).
Proof.
  induction besti as [|i' IH]; intros bestj bestsize Hv; [done|].
  destruct bestj as [|j']; [done|]. simpl.
  destruct ((alo <? S i') && (blo <? S j')
            && bool_decide (junk_at sm j' = junk) && same_at sm i' j')
    eqn:Hcond; [|done].
  apply andb_prop in Hcond as [Hcond Hsame].
  apply andb_prop in Hcond as [Hcond _].
  apply andb_prop in Hcond as [Hi%Nat.ltb_lt Hj%Nat.ltb_lt].
  apply same_at_Some in Hsame as (x & Ha & Hb).
  destruct Hv as (? & ? & ? & ? & Hm). simpl in *.
  apply IH. unfold valid_in. simpl. split_and!; try lia.
  by apply (matches_extend_l _ _ _ _ _ x).
Qed.

Lemma extend_right_valid sm junk alo ahi blo bhi besti bestj :
  ∀ fuel bestsize,
    valid_in sm alo ahi blo bhi (besti, bestj, bestsize) →
    valid_in sm alo ahi blo bhi
      (besti, bestj,
       extend_right fuel sm junk ahi bhi besti bestj bestsize).
Proof.
  induction fuel as [|fuel IH]; intros bestsize Hv; [done|]. simpl.
  destruct ((besti + bestsize <? ahi) && (bestj + bestsize <? bhi)
            && bool_decide (junk_at sm (bestj + bestsize) = junk)
            && same_at sm (besti + bestsize) (bestj + bestsize))
    eqn:Hcond; [|done].
  apply andb_prop in Hcond as [Hcond Hsame].
  apply andb_prop in Hcond as [Hcond _].
  apply andb_prop in Hcond as [Hi%Nat.ltb_lt Hj%Nat.ltb_lt].
  apply same_at_Some in Hsame as (x & Ha & Hb).
  destruct Hv as (? & ? & ? & ? & Hm). simpl in *.
  apply IH. unfold valid_in. simpl. split_and!; try lia.
  by apply (matches_extend_r _ _ _ _ _ x).
Qed.

(** [find_longest_match] returns a match of the region it is given. *)
Lemma find_longest_match_valid sm alo ahi blo bhi :
  b2j_sound sm →
  alo ≤ ahi → ahi ≤ length (sm_a sm) →
  blo ≤ bhi → bhi ≤ length (sm_b sm) →
  valid_in sm alo ahi blo bhi (find_longest_match sm alo ahi blo bhi).
Proof.
  intros Hb2j Ha Hla Hb Hlb. unfold find_longest_match.
  pose proof (scan_rows_sound sm alo ahi blo bhi Hb2j (ahi - alo) alo ∅
                (alo, blo, 0)) as Hscan.
  destruct (scan_rows sm blo bhi (seq alo (ahi - alo)) ∅ (alo, blo, 0))
    as [[i0 j0] k0].
  assert (valid_in sm alo ahi blo bhi (i0, j0, k0)) as Hv0.
  { apply Hscan; try done; try lia.
    unfold valid_in. simpl. split_and!; try lia. apply matches_nil; lia. }
  simpl.
  pose proof (extend_left_valid sm false alo ahi blo bhi i0 j0 k0 Hv0) as Hv1.
  destruct (extend_left sm false alo blo i0 j0 k0) as [[i1 j1] k1].
  pose proof (extend_right_valid sm false alo ahi blo bhi i1 j1
                (ahi - (i1 + k1)) k1 Hv1) as Hv2.
  pose proof (extend_left_valid sm true alo ahi blo bhi i1 j1 _ Hv2) as Hv3.
  destruct (extend_left sm true alo blo i1 j1
              (extend_right (ahi - (i1 + k1)) sm false ahi bhi i1 j1 k1))
    as [[i3 j3] k3].
  by apply extend_right_valid.
Qed.

(** *** What [b2j] holds *)

Lemma chain_from_lookup b :
  ∀ i (m : gmap A (list nat)) x js,
    chain_from i b m !! x = Some js →
    js = default [] (m !! x) ++ positions_from i x b.
Proof.
  induction b as [|y b IH]; intros i m x js; simpl.
  - intros ->. simpl. by rewrite app_nil_r.
  - intros Hjs%IH. subst js. rewrite lookup_insert.
    case_decide as Hy; destruct (decide (y = x)); try done; simpl.
    subst y. by rewrite <- app_assoc.
Qed.

Lemma chain_b_lookup b x js :
  chain_b b !! x = Some js → js = positions_from 0 x b.
Proof.
  unfold chain_b. destruct (200 <=? length b).
  - intros [Hjs _]%map_lookup_filter_Some.
    by apply chain_from_lookup in Hjs.
  - intros Hjs. by apply chain_from_lookup in Hjs.
Qed.

Lemma elem_of_positions_from b x :
  ∀ i j, j ∈ positions_from i x b ↔ ∃ t, j = i + t ∧ b !! t = Some x.
Proof.
  induction b as [|y b IH]; intros i j; simpl.
  - split; [by intros ?%elem_of_nil | by intros (t & _ & ?)].
  - rewrite elem_of_app, IH. split.
    + intros [Hj|(t & -> & Ht)].
      * destruct (decide (y = x)) as [->|]; [|by apply elem_of_nil in Hj].
        apply list_elem_of_singleton in Hj as ->. exists 0.
        split; [lia | done].
      * exists (S t). split; [lia | done].
    + intros ([|t] & -> & Ht); simpl in Ht.
      * left. injection Ht as ->. rewrite decide_True by done.
        rewrite Nat.add_0_r. apply list_elem_of_here.
      * right. exists t. split; [lia | done].
Qed.

Lemma SequenceMatcher_sound a b : b2j_sound (SequenceMatcher a b).
Proof.
  intros x js j Hjs Hj. simpl in *. apply chain_b_lookup in Hjs as ->.
  apply elem_of_positions_from in Hj as (t & -> & Ht). done.
Qed.

(** *** The loop of [get_matching_blocks] *)

Lemma apart_sym (r1 r2 : region) : apart r1 r2 → apart r2 r1.
Proof. unfold apart. tauto. Qed.

#[local] Instance apart_symmetric : Symmetric apart.
Proof. intros r1 r2. apply apart_sym. Qed.

Lemma apart_inside (s r o : region) :
  inside s r → apart r o → apart s o.
Proof. unfold inside, apart, before. lia. Qed.

Lemma StronglySorted_perm {B} (R : relation B) `{!Symmetric R} l1 l2 :
  l1 ≡ₚ l2 → StronglySorted R l1 → StronglySorted R l2.
Proof.
  induction 1 as [|x l1 l2 Hp IH|x y l|l1 l2 l3 _ IH1 _ IH2]; [done | | |].
  - rewrite !StronglySorted_cons. intros [Hx Hl]. split; [|by apply IH].
    by rewrite <- Hp.
  - rewrite !StronglySorted_cons, !Forall_cons.
    intros [[Hyx Hy] [Hx Hl]]. by split_and!.
  - intros. by apply IH2, IH1.
Qed.

Lemma queue_measure_cons (r : region) queue :
  queue_measure (r :: queue)
  = 2 * (r.1.1.2 - r.1.1.1) + 1 + queue_measure queue.
Proof. done. Qed.

(** The loop ends within the rounds it is given and returns matches
    that lie apart. *)
Lemma matching_loop_inv sm :
  b2j_sound sm →
  ∀ fuel queue blocks,
    loop_inv sm queue blocks → queue_measure queue ≤ fuel →
    ∃ res, matching_loop fuel sm queue blocks = Some res
           ∧ Forall (block_ok sm) res
           ∧ StronglySorted apart (rect_of_block <$> res).
Proof.
  intros Hb2j. induction fuel as [|fuel IH]; intros queue blocks Hinv Hfuel.
  { destruct queue as [|[[[alo ahi] blo] bhi] queue].
    - exists blocks. by destruct Hinv.
    - rewrite queue_measure_cons in Hfuel. lia. }
  destruct queue as [|[[[alo ahi] blo] bhi] queue].
  { exists blocks. by destruct Hinv. }
  destruct Hinv as [Hregs Hblocks Hqa Hba Hcross].
  apply Forall_cons in Hregs as [(Hr1 & Hr2 & Hr3 & Hr4) Hregs].
  apply StronglySorted_cons in Hqa as [Hrq Hqa].
  rewrite queue_measure_cons in Hfuel. simpl in *.
  pose proof (find_longest_match_valid sm alo ahi blo bhi Hb2j
                Hr1 Hr2 Hr3 Hr4) as Hv.
  destruct (find_longest_match sm alo ahi blo bhi) as [[i j] k].
  destruct Hv as (Hv1 & Hv2 & Hv3 & Hv4 & Hm). simpl in *.
  destruct (Nat.eqb_spec k 0) as [->|Hk].
  { apply IH; [|lia]. split; try done.
    intros r x Hr Hx. apply Hcross; [by apply list_elem_of_further | done]. }
  assert (inside (rect_of_block (i, j, k)) (alo, ahi, blo, bhi)) as Hin.
  { unfold inside. simpl. lia. }
  assert (loop_inv sm queue (blocks ++ [(i, j, k)])) as Hinv1.
  { split; try done.
    - apply Forall_app. split; [done|]. constructor; [|done].
      split; [simpl; lia | done].
    - rewrite fmap_app. apply StronglySorted_app_2; [|done|].
      + intros r1 r2 Hr1' Hr2'. simpl in Hr2'.
        apply list_elem_of_singleton in Hr2' as ->.
        apply list_elem_of_fmap in Hr1' as (x & -> & Hx).
        apply apart_sym, (apart_inside _ (alo, ahi, blo, bhi)); [done|].
        apply Hcross; [apply list_elem_of_here | done].
      + simpl. repeat constructor.
    - intros r x Hr [Hx| ->%list_elem_of_singleton]%elem_of_app.
      + apply Hcross; [by apply list_elem_of_further | done].
      + apply apart_sym, (apart_inside _ (alo, ahi, blo, bhi)); [done|].
        rewrite Forall_forall in Hrq. by apply Hrq. }
  assert (∀ s queue', inside s (alo, ahi, blo, bhi) → region_ok sm s →
            Forall (apart s) queue' → apart s (rect_of_block (i, j, k)) →
            (∀ r, r ∈ queue' → r ∈ queue ∨ inside r (alo, ahi, blo, bhi)) →
            loop_inv sm queue' (blocks ++ [(i, j, k)]) →
            loop_inv sm (s :: queue') (blocks ++ [(i, j, k)])) as Hpush.
  { intros s queue' Hs Hok Hsq Hsx Hsub [Hq1 Hq2 Hq3 Hq4 Hq5].
    split; try done.
    - by constructor.
    - by constructor.
    - intros r x [->|Hr]%elem_of_cons Hx; [|by apply Hq5].
      apply elem_of_app in Hx as [Hx| ->%list_elem_of_singleton]; [|done].
      apply (apart_inside _ (alo, ahi, blo, bhi)); [done|].
      apply Hcross; [apply list_elem_of_here | done]. }
  assert (∀ s, inside s (alo, ahi, blo, bhi) → Forall (apart s) queue)
    as Hsq.
  { intros s Hs. eapply Forall_impl; [exact Hrq|].
    intros r Hr. by apply (apart_inside _ (alo, ahi, blo, bhi)). }
  set (left := (alo, i, blo, j) : region).
  set (right := (i + k, ahi, j + k, bhi) : region).
  assert (inside left (alo, ahi, blo, bhi)) as Hl
    by (unfold inside; simpl; lia).
  assert (inside right (alo, ahi, blo, bhi)) as Hr
    by (unfold inside; simpl; lia).
  assert (region_ok sm left) as Hlok by (unfold region_ok; simpl; lia).
  assert (region_ok sm right) as Hrok by (unfold region_ok; simpl; lia).
  assert (apart left (rect_of_block (i, j, k))) as Hlx
    by (left; unfold before; simpl; lia).
  assert (apart right (rect_of_block (i, j, k))) as Hrx
    by (right; unfold before; simpl; lia).
  assert (apart right left) as Hrl by (right; unfold before; simpl; lia).
  destruct ((alo <? i) && (blo <? j)) eqn:Hc1;
    destruct ((i + k <? ahi) && (j + k <? bhi)) eqn:Hc2.
  - apply IH.
    + apply Hpush; try done.
      * constructor; [done | by apply Hsq].
      * intros r [->|Hr']%elem_of_cons; [by right | by left].
      * apply Hpush; try done; [by apply Hsq | by left].
    + rewrite !queue_measure_cons. simpl. lia.
  - apply IH.
    + apply Hpush; try done; [by apply Hsq | by left].
    + rewrite !queue_measure_cons. simpl. lia.
  - apply IH.
    + apply Hpush; try done; [by apply Hsq | by left].
    + rewrite !queue_measure_cons. simpl. lia.
  - apply IH; [done | lia].
Qed.

(** *** From the sorted blocks to the matching blocks *)

Lemma block_le_spec (x y : block) :
  block_le x y ↔
  x.1.1 < y.1.1
  ∨ x.1.1 = y.1.1 ∧ (x.1.2 < y.1.2 ∨ x.1.2 = y.1.2 ∧ x.2 ≤ y.2).
Proof.
  destruct x as [[i1 j1] k1], y as [[i2 j2] k2].
  unfold block_le, block_leb. simpl.
  rewrite !orb_true_iff, !andb_true_iff, !orb_true_iff, !andb_true_iff.
  rewrite !Nat.ltb_lt, !Nat.eqb_eq, Nat.leb_le. done.
Qed.

#[local] Instance block_le_total : Total block_le.
Proof. intros x y. rewrite !block_le_spec. lia. Qed.

#[local] Instance block_le_trans : Transitive block_le.
Proof. intros x y z. rewrite !block_le_spec. lia. Qed.

Lemma tiling_app a b l1 l2 :
  ∀ i j, tiling a b i j (l1 ++ l2)
         ↔ tiling a b i j l1
           ∧ tiling a b (end_of (i, j) l1).1 (end_of (i, j) l1).2 l2.
Proof.
  induction l1 as [|x l1 IH]; intros i j; simpl.
  - tauto.
  - rewrite IH. tauto.
Qed.

Lemma end_of_snoc p l (x : block) :
  end_of p (l ++ [x]) = (x.1.1 + x.2, x.1.2 + x.2).
Proof.
  revert p. induction l as [|y l IH]; intros p; simpl; [done|]. apply IH.
Qed.

(** Matches that lie apart, once sorted as tuples, follow one another. *)
Lemma sorted_tiling sm l :
  Forall (block_ok sm) l →
  StronglySorted apart (rect_of_block <$> l) →
  StronglySorted block_le l →
  ∀ i j, Forall (λ x : block, i ≤ x.1.1 ∧ j ≤ x.1.2) l →
         tiling (sm_a sm) (sm_b sm) i j l.
Proof.
  induction l as [|x l IH]; intros Hok Hap Hle i j Hlo; [done|].
  apply Forall_cons in Hok as [[Hk Hm] Hok].
  rewrite fmap_cons in Hap.
  apply StronglySorted_cons in Hap as [Hxa Hap].
  apply StronglySorted_cons in Hle as [Hxl Hle].
  apply Forall_cons in Hlo as [[Hi Hj] Hlo].
  simpl. split_and!; try done. apply IH; try done.
  apply Forall_forall. intros y Hy.
  rewrite Forall_forall in Hxa. rewrite Forall_forall in Hxl.
  rewrite Forall_forall in Hok.
  specialize (Hxl y Hy). apply block_le_spec in Hxl.
  destruct (Hok y Hy) as [Hky _].
  specialize (Hxa (rect_of_block y)).
  destruct Hxa as [Hb|Hb].
  { apply list_elem_of_fmap. by exists y. }
  - unfold before in Hb. simpl in Hb. lia.
  - unfold before in Hb. simpl in Hb. lia.
Qed.

Lemma collapse_acc blocks :
  ∀ i1 j1 k1 acc,
    collapse i1 j1 k1 blocks acc
    = ((collapse i1 j1 k1 blocks []).1,
       acc ++ (collapse i1 j1 k1 blocks []).2).
Proof.
  induction blocks as [|[[i2 j2] k2] blocks IH]; intros i1 j1 k1 acc; simpl.
  - by rewrite app_nil_r.
  - destruct ((i1 + k1 =? i2) && (j1 + k1 =? j2)); [apply IH|].
    rewrite IH. rewrite (IH i2 j2 k2 (if k1 =? 0 then [] else _)). simpl.
    f_equal. destruct (k1 =? 0); simpl; [done|]. by rewrite <- app_assoc.
Qed.

(** Collapsing adjacent blocks keeps them matches that follow one
    another. *)
Lemma collapse_tiling a b blocks :
  ∀ i1 j1 k1 p q,
    p ≤ i1 → q ≤ j1 → matches a b i1 j1 k1 →
    tiling a b (i1 + k1) (j1 + k1) blocks →
    tiling a b p q ((collapse i1 j1 k1 blocks []).2
                    ++ [(collapse i1 j1 k1 blocks []).1]).
Proof.
  induction blocks as [|[[i2 j2] k2] blocks IH];
    intros i1 j1 k1 p q Hp Hq Hm Ht; simpl.
  - done.
  - destruct Ht as (Hi & Hj & Hm2 & Ht). simpl in *.
    destruct (Nat.eqb_spec (i1 + k1) i2) as [<-|Hne1];
      [destruct (Nat.eqb_spec (j1 + k1) j2) as [<-|Hne2]|]; simpl.
    + apply IH; try done.
      * by apply matches_app.
      * by rewrite !Nat.add_assoc.
    + rewrite collapse_acc. simpl.
      destruct (Nat.eqb_spec k1 0) as [->|Hk]; simpl.
      * apply IH; try done; lia.
      * split_and!; try done. apply IH; try done.
    + rewrite collapse_acc. simpl.
      destruct (Nat.eqb_spec k1 0) as [->|Hk]; simpl.
      * apply IH; try done; lia.
      * split_and!; try done. apply IH; try done.
Qed.

(** [get_matching_blocks] returns: matches that follow one another from
    [(0, 0)] on and end with the sentinel. *)
Lemma get_matching_blocks_tiling a b :
  ∃ blocks,
    get_matching_blocks (SequenceMatcher a b) = Some blocks
    ∧ tiling a b 0 0 blocks
    ∧ last blocks = Some (length a, length b, 0).
Proof.
  unfold get_matching_blocks.
  set (sm := SequenceMatcher a b).
  change (sm_a sm) with a. change (sm_b sm) with b.
  destruct (matching_loop_inv sm (SequenceMatcher_sound a b)
              (2 * length a + 1) [(0, length a, 0, length b)] [])
    as (res & -> & Hok & Hap).
  { split; try done.
    - repeat constructor; simpl; lia.
    - repeat constructor.
    - constructor.
    - intros r x _ Hx. by apply elem_of_nil in Hx. }
  { rewrite queue_measure_cons. unfold queue_measure. simpl. lia. }
  simpl.
  assert (tiling a b 0 0 (merge_sort block_le res)) as Ht.
  { apply (sorted_tiling sm).
    - by rewrite merge_sort_Permutation.
    - apply (StronglySorted_perm apart (rect_of_block <$> res)); [|done].
      by rewrite merge_sort_Permutation.
    - apply StronglySorted_merge_sort; apply _.
    - apply Forall_forall. intros; lia. }
  pose proof (collapse_tiling a b (merge_sort block_le res) 0 0 0 0 0
                (le_n _) (le_n _)
                (matches_nil a b 0 0 (Nat.le_0_l _) (Nat.le_0_l _)) Ht) as Hc.
  destruct (collapse 0 0 0 (merge_sort block_le res) [])
    as [[[i1 j1] k1] na].
  simpl in Hc. eexists. split; [done|].
  apply tiling_app in Hc as [Hna Hh]. simpl in Hh.
  destruct Hh as (Hi & Hj & Hm & _).
  pose proof Hm as (Hla & Hlb & _).
  split; [|by rewrite last_snoc].
  destruct (Nat.eqb_spec k1 0) as [->|Hk].
  - apply tiling_app. split; [done|]. simpl. split_and!; try lia.
    apply matches_nil; lia.
  - apply tiling_app. split.
    + apply tiling_app. split; [done|]. simpl. done.
    + rewrite end_of_snoc. simpl. split_and!; try lia.
      apply matches_nil; lia.
Qed.

(** *** Opcodes and groups *)

(** When every opcode is ['equal'], the blocks cover [a] and [b] from
    [(i, j)] on and the two lists agree there. *)
Lemma opcodes_equal_eq a b blocks :
  ∀ i j,
    tiling a b i j blocks →
    last blocks = Some (length a, length b, 0) →
    Forall (λ c : opcode, c.1.1.1.1 = Equal) (opcodes_from i j blocks) →
    drop i a = drop j b.
Proof.
  induction blocks as [|[[ai bj] size] blocks IH]; intros i j Ht Hlast Hall;
    [done|].
  destruct Ht as (Hi & Hj & (Hla & Hlb & Hm) & Ht). simpl in *.
  assert (i = ai ∧ j = bj) as [-> ->].
  { destruct (Nat.ltb_spec i ai); destruct (Nat.ltb_spec j bj); simpl in Hall;
      try (apply Forall_cons in Hall as [Hc _]; discriminate Hc). lia. }
  rewrite !Nat.ltb_irrefl in Hall. simpl in Hall.
  destruct blocks as [|y blocks].
  - injection Hlast as -> -> ->. by rewrite !drop_all.
  - rewrite <- (take_drop size (drop ai a)), <- (take_drop size (drop bj b)).
    rewrite Hm, !drop_drop. f_equal. apply IH; [done | done |].
    destruct (size =? 0); [done|]. by apply Forall_cons in Hall as [_ Hall].
Qed.

(** Two lists that differ get an opcode that is not ['equal']. *)
Lemma opcodes_changed a b blocks :
  tiling a b 0 0 blocks →
  last blocks = Some (length a, length b, 0) →
  a ≠ b →
  Exists changed (opcodes_from 0 0 blocks).
Proof.
  intros Ht Hlast Hne.
  destruct (decide (Forall (λ c : opcode, c.1.1.1.1 = Equal)
                      (opcodes_from 0 0 blocks))) as [Hall|Hnot].
  - destruct Hne. by apply (opcodes_equal_eq a b blocks 0 0).
  - by apply not_Forall_Exists in Hnot; [|apply _].
Qed.

Lemma fix_first_changed n codes :
  Exists changed codes → Exists changed (fix_first n codes).
Proof.
  destruct codes as [|[[[[t i1] i2] j1] j2] codes]; [done|].
  destruct t; try done. simpl.
  intros [Hc|Hc]%Exists_cons; [done | by right].
Qed.

Lemma fix_last_changed n codes :
  Exists changed codes → Exists changed (fix_last n codes).
Proof.
  unfold fix_last.
  destruct (last codes) as [[[[[t i1] i2] j1] j2]|] eqn:Hlast; [|done].
  destruct t; try done.
  apply last_Some in Hlast as [codes' ->].
  rewrite removelast_last.
  intros [Hc|Hc]%Exists_app; apply Exists_app; [by left|].
  apply Exists_cons in Hc as [Hc|Hc]; [done | by apply Exists_nil in Hc].
Qed.

Lemma group_from_changed n codes :
  ∀ group,
    Exists changed codes ∨ Exists changed group →
    group_from n codes group ≠ [].
Proof.
  induction codes as [|[[[[t i1] i2] j1] j2] codes IH]; intros group Hc.
  - destruct Hc as [Hc|Hc]; [by apply Exists_nil in Hc|]. simpl.
    destruct group as [|[[[[t i1] i2] j1] j2] [|c group]];
      [by apply Exists_nil in Hc | | by destruct t].
    destruct t; try done.
    apply Exists_cons in Hc as [Hc|Hc]; [done | by apply Exists_nil in Hc].
  - simpl. destruct (is_equal t && (n + n <? i2 - i1)) eqn:Hcut; [done|].
    apply IH. destruct Hc as [Hc|Hc].
    + apply Exists_cons in Hc as [Hc|Hc]; [|by left].
      right. apply Exists_app. right. by left.
    + right. apply Exists_app. by left.
Qed.

(** *** Comparing a list with itself *)

Lemma positions_from_sorted b x :
  ∀ i, StronglySorted lt (positions_from i x b).
Proof.
  induction b as [|y b IH]; intros i; simpl; [constructor|].
  apply StronglySorted_app_2; [| |apply IH].
  - intros j1 j2 Hj1 (t & -> & _)%elem_of_positions_from.
    destruct (decide (y = x)); [|by apply elem_of_nil in Hj1].
    apply list_elem_of_singleton in Hj1 as ->. lia.
  - destruct (decide (y = x)); repeat constructor.
Qed.

Lemma scan_row_lookup bhi i j2len js :
  (∀ j, j ∈ js → j < bhi) →
  ∀ newj2len best j,
    (scan_row 0 bhi i j2len js newj2len best).1 !! j
    = if decide (j ∈ js) then Some (j2lenget j2len j + 1)
      else newj2len !! j.
Proof.
  induction js as [|j0 js IH]; intros Hlt newj2len best j.
  - case_decide as Hin; [by apply elem_of_nil in Hin | done].
  - cbn [scan_row]. change (j0 <? 0) with false. cbn iota.
    destruct (Nat.leb_spec bhi j0) as [Hge|_].
    { specialize (Hlt j0 (list_elem_of_here _ _)). lia. }
    rewrite IH by (intros j' Hj'; by apply Hlt, list_elem_of_further).
    destruct (decide (j ∈ js)) as [Hin|Hnin].
    + by rewrite decide_True by by apply list_elem_of_further.
    + rewrite lookup_insert. destruct (decide (j0 = j)) as [->|Hne].
      * by rewrite decide_True by apply list_elem_of_here.
      * rewrite decide_False; [done|].
        intros [->|Hin]%elem_of_cons; done.
Qed.

Section SameList.
Variable sm : matcher A.
Hypothesis Hsame : sm_a sm = sm_b sm.
Hypothesis Hb2j :
  ∀ x js, b2j sm !! x = Some js → js = positions_from 0 x (sm_b sm).
Hypothesis Hjunk : bjunk sm = ∅.

Lemma run_unfold i j :
  run sm i j
  = if same_at sm i j && kept sm j then
      S (match i, j with S i', S j' => run sm i' j' | _, _ => 0 end)
    else 0.
Proof. by destruct i. Qed.

Lemma same_at_kept i j :
  same_at sm i j && kept sm j = true →
  same_at sm i i && kept sm i = true ∧ same_at sm j j && kept sm j = true.
Proof.
  intros [Hs Hk]%andb_prop.
  pose proof (same_at_Some _ _ _ Hs) as (x & Hi & Hj).
  unfold same_at, kept in *. rewrite Hsame in *.
  rewrite Hj in Hk. apply bool_decide_eq_true in Hk. rewrite Hi, Hj.
  rewrite (bool_decide_eq_true_2 (x = x)) by done.
  by rewrite (bool_decide_eq_true_2 _ Hk).
Qed.

(** A run never exceeds the runs on the diagonal at its two ends. *)
Lemma run_le_diag i :
  ∀ j, run sm i j ≤ run sm i i ∧ run sm i j ≤ run sm j j.
Proof.
  induction i as [|i IH]; intros j.
  - rewrite !(run_unfold 0), (run_unfold j j).
    destruct (same_at sm 0 j && kept sm j) eqn:E; [|lia].
    apply same_at_kept in E as [-> ->]. destruct j; lia.
  - rewrite !(run_unfold (S i)), (run_unfold j j).
    destruct (same_at sm (S i) j && kept sm j) eqn:E; [|lia].
    apply same_at_kept in E as [-> ->].
    destruct j as [|j]; [lia|]. destruct (IH j). lia.
Qed.

(** The indices of a row are those at which a run ends on that row. *)
Lemma row_indices i x j :
  sm_a sm !! i = Some x →
  j ∈ default [] (b2j sm !! x) ↔ same_at sm i j && kept sm j = true.
Proof.
  intros Hi. unfold same_at, kept. rewrite Hi. split.
  - destruct (b2j sm !! x) as [js|] eqn:Ejs; simpl;
      [|by intros ?%elem_of_nil].
    rewrite (Hb2j x js Ejs).
    intros (t & -> & Ht)%elem_of_positions_from. simpl. rewrite Ht.
    rewrite bool_decide_eq_true_2 by done.
    by rewrite bool_decide_eq_true_2 by by rewrite Ejs.
  - destruct (sm_b sm !! j) as [y|] eqn:Hj; [|done].
    intros [<-%bool_decide_eq_true [js Ejs]%bool_decide_eq_true]%andb_prop.
    rewrite Ejs. simpl. rewrite (Hb2j x js Ejs).
    apply elem_of_positions_from. by exists j.
Qed.

Lemma row_sorted x : StronglySorted lt (default [] (b2j sm !! x)).
Proof.
  destruct (b2j sm !! x) as [js|] eqn:Ejs; simpl; [|constructor].
  rewrite (Hb2j x js Ejs). apply positions_from_sorted.
Qed.

(** One row keeps [best] on the diagonal and at least as long as every
    run that ends on the diagonal up to that row. *)
Lemma scan_row_diag bhi i j2len js :
  StronglySorted lt js →
  (∀ j, j ∈ js → j < bhi ∧ j2lenget j2len j + 1 = run sm i j) →
  ∀ newj2len best,
    best.1.1 = best.1.2 →
    (∀ i', i' < i → run sm i' i' ≤ best.2) →
    i ∈ js ∨ run sm i i ≤ best.2 →
    let r := (scan_row 0 bhi i j2len js newj2len best).2 in
    r.1.1 = r.1.2 ∧ ∀ i', i' ≤ i → run sm i' i' ≤ r.2.
Proof.
  induction js as [|j js IH]; intros Hsorted Hrun newj2len best Hd Hprev Hi.
  - simpl. split; [done|]. intros i' Hi'.
    destruct Hi as [Hi|Hi]; [by apply elem_of_nil in Hi|].
    destruct (decide (i' = i)) as [->|]; [done | apply Hprev; lia].
  - apply StronglySorted_cons in Hsorted as [Hj Hsorted].
    rewrite Forall_forall in Hj.
    destruct (Hrun j (list_elem_of_here _ _)) as [Hlt Hk]. simpl.
    destruct (Nat.leb_spec bhi j) as [|_]; [lia|]. rewrite Hk.
    assert (∀ j', j' ∈ js → j' < bhi ∧ j2lenget j2len j' + 1 = run sm i j')
      as Hrun' by (intros j' Hj'; by apply Hrun, list_elem_of_further).
    destruct (run_le_diag i j) as [Hle1 Hle2].
    destruct (lt_eq_lt_dec j i) as [[Hji| ->]|Hji].
    + pose proof (Hprev j Hji).
      destruct (Nat.ltb_spec best.2 (run sm i j)); [lia|].
      apply IH; try done.
      destruct Hi as [[->|Hi]%elem_of_cons|Hi]; [lia | by left | by right].
    + destruct (Nat.ltb_spec best.2 (run sm i i)).
      * apply IH; try done; simpl.
        -- intros i' Hi'. specialize (Hprev i' Hi'). lia.
        -- by right.
      * apply IH; try done. right. lia.
    + assert (run sm i i ≤ best.2) as Hii.
      { destruct Hi as [[->|Hi]%elem_of_cons|Hi]; [lia | | done].
        specialize (Hj i Hi). lia. }
      destruct (Nat.ltb_spec best.2 (run sm i j)); [lia|].
      apply IH; try done. by right.
Qed.

Lemma scan_rows_diag bhi :
  bhi = length (sm_b sm) →
  ∀ n i j2len best,
    i + n ≤ bhi →
    row_ok sm i j2len →
    best.1.1 = best.1.2 →
    (∀ i', i' < i → run sm i' i' ≤ best.2) →
    (scan_rows sm 0 bhi (seq i n) j2len best).1.1
    = (scan_rows sm 0 bhi (seq i n) j2len best).1.2.
Proof.
  intros Hbhi. induction n as [|n IH]; intros i j2len best Hn Hrow Hd Hprev;
    [done|].
  simpl. destruct (sm_a sm !! i) as [x|] eqn:Hi; cycle 1.
  { apply lookup_ge_None in Hi. rewrite Hsame in Hi. lia. }
  set (js := default [] (b2j sm !! x)).
  assert (∀ j, j ∈ js → j < bhi ∧ j2lenget j2len j + 1 = run sm i j)
    as Hrun.
  { intros j Hj. apply (row_indices i x j Hi) in Hj as Hok.
    rewrite run_unfold, Hok. split.
    - apply andb_prop in Hok as [(y & _ & Hy)%same_at_Some _].
      apply lookup_lt_Some in Hy. lia.
    - rewrite Nat.add_1_r. f_equal. destruct j as [|j]; simpl.
      + by destruct i.
      + rewrite (Hrow j). by destruct i. }
  pose proof (scan_row_lookup bhi i j2len js (λ j Hj, proj1 (Hrun j Hj))
                ∅ best) as Hlook.
  pose proof (scan_row_diag bhi i j2len js (row_sorted x) Hrun ∅ best
                Hd Hprev) as Hbest.
  destruct (scan_row 0 bhi i j2len js ∅ best) as [newj2len best'].
  simpl in Hlook, Hbest.
  destruct Hbest as [Hd' Hprev'].
  { destruct (same_at sm i i && kept sm i) eqn:Hok.
    - left. by apply (row_indices i x i Hi).
    - right. rewrite run_unfold, Hok. lia. }
  apply IH; try done; [lia | |].
  - intros j. rewrite Hlook. destruct (decide (j ∈ js)) as [Hj|Hj].
    + simpl. by apply Hrun.
    + rewrite lookup_empty. simpl. rewrite run_unfold.
      destruct (same_at sm i j && kept sm j) eqn:Hok; [|done].
      destruct Hj. by apply (row_indices i x j Hi).
  - intros i' Hi'. apply Hprev'. lia.
Qed.

End SameList.

Lemma same_at_diag a i :
  i < length a → same_at (SequenceMatcher a a) i i = true.
Proof.
  intros [x Hx]%lookup_lt_is_Some. unfold same_at. simpl. rewrite Hx.
  by apply bool_decide_eq_true_2.
Qed.

Lemma junk_at_none a b j : junk_at (SequenceMatcher a b) j = false.
Proof. unfold junk_at. simpl. by destruct (b !! j). Qed.

Lemma extend_left_diag a :
  ∀ d s, d ≤ length a →
         extend_left (SequenceMatcher a a) false 0 0 d d s = (0, 0, d + s).
Proof.
  induction d as [|d IH]; intros s Hd; [done|].
  cbn [extend_left]. rewrite junk_at_none, same_at_diag by lia.
  rewrite bool_decide_eq_true_2 by done. cbn [Nat.ltb Nat.leb andb].
  rewrite IH by lia. f_equal. lia.
Qed.

Lemma extend_right_diag a :
  ∀ fuel s, s + fuel = length a →
            extend_right fuel (SequenceMatcher a a) false
              (length a) (length a) 0 0 s = length a.
Proof.
  induction fuel as [|fuel IH]; intros s Hs; simpl; [lia|].
  rewrite junk_at_none, same_at_diag by lia.
  rewrite bool_decide_eq_true_2 by done.
  destruct (Nat.ltb_spec s (length a)); [|lia]. simpl. apply IH. lia.
Qed.

(** A list compared with itself is found as one match. *)
Lemma find_longest_match_same a :
  find_longest_match (SequenceMatcher a a) 0 (length a) 0 (length a)
  = (0, 0, length a).
Proof.
  set (sm := SequenceMatcher a a). unfold find_longest_match.
  pose proof (scan_rows_sound sm 0 (length a) 0 (length a)
                (SequenceMatcher_sound a a) (length a - 0) 0 ∅ (0, 0, 0))
    as Hv.
  pose proof (scan_rows_diag sm eq_refl
                (λ x js Hjs, chain_b_lookup a x js Hjs)
                (length a) eq_refl (length a - 0) 0 ∅ (0, 0, 0)) as Hd.
  destruct (scan_rows sm 0 (length a) (seq 0 (length a - 0)) ∅ (0, 0, 0))
    as [[d d'] s].
  simpl in Hd. assert (d = d') as <-.
  { apply Hd; try done; lia. }
  assert (d + s ≤ length a) as Hds.
  { apply Hv; try done; try lia.
    unfold valid_in. simpl. split_and!; try lia. apply matches_nil; lia. }
  cbn [fst snd]. unfold sm.
  rewrite extend_left_diag by lia.
  rewrite extend_right_diag by lia.
  cbn [extend_left]. by rewrite Nat.sub_diag.
Qed.

Lemma matching_loop_nil fuel sm blocks :
  matching_loop fuel sm [] blocks = Some blocks.
Proof. by destruct fuel. Qed.

Lemma get_matching_blocks_same a :
  get_matching_blocks (SequenceMatcher a a)
  = Some (if length a =? 0 then [(0, 0, 0)]
          else [(0, 0, length a); (length a, length a, 0)]).
Proof.
  unfold get_matching_blocks. rewrite Nat.add_1_r.
  cbn [matching_loop sm_a sm_b SequenceMatcher].
  rewrite find_longest_match_same.
  destruct (Nat.eqb_spec (length a) 0) as [Hn|Hn].
  - rewrite matching_loop_nil. simpl. by rewrite Hn.
  - rewrite Nat.ltb_irrefl. cbn [andb Nat.add].
    rewrite Nat.ltb_irrefl, matching_loop_nil. cbn [mbind option_bind].
    change (merge_sort block_le ([] ++ [(0, 0, length a)]))
      with [(0, 0, length a)].
    cbn [collapse Nat.add Nat.eqb andb].
    by destruct (Nat.eqb_spec (length a) 0).
Qed.

(** A list compared with itself has no group of changes. *)
Lemma get_grouped_opcodes_same a :
  get_grouped_opcodes (SequenceMatcher a a) 3 = Some [].
Proof.
  unfold get_grouped_opcodes, get_opcodes.
  rewrite get_matching_blocks_same.
  destruct (Nat.eqb_spec (length a) 0) as [Hn|Hn]; [done|].
  cbn [fmap option_fmap option_map mbind option_bind opcodes_from].
  rewrite !Nat.ltb_irrefl. cbn [andb Nat.add Nat.eqb app].
  destruct (Nat.eqb_spec (length a) 0) as [|_]; [done|].
  cbn [app fix_first fix_last last removelast group_from is_equal andb].
  destruct (Nat.ltb_spec (3 + 3)
              (length a `min` (0 `max` (length a - 3) + 3)
               - 0 `max` (length a - 3))) as [Hlt|_]; [lia|].
  done.
Qed.

End MatcherFacts.

(** ** Facts about the diff helper *)

Section DiffFacts.
Import Difflib.

Implicit Types a b : list str.
Implicit Types fromfile tofile lineterm : str.

Lemma diff_lines_nonempty a b fromfile tofile lineterm groups :
  groups ≠ [] → diff_lines a b fromfile tofile lineterm false groups ≠ [].
Proof. by destruct groups. Qed.

(** [unified_diff] returns, and returns lines, when the two lists of
    lines differ. *)
Lemma unified_diff_changed a b fromfile tofile lineterm :
  a ≠ b →
  ∃ diff, unified_diff a b fromfile tofile lineterm = Some diff ∧ diff ≠ [].
Proof.
  intros Hne. unfold unified_diff, get_grouped_opcodes, get_opcodes.
  destruct (get_matching_blocks_tiling a b) as (blocks & -> & Ht & Hlast).
  simpl. eexists. split; [done|].
  apply diff_lines_nonempty, group_from_changed. left.
  pose proof (opcodes_changed a b blocks Ht Hlast Hne) as Hc.
  destruct (opcodes_from 0 0 blocks) as [|c codes];
    [by apply Exists_nil in Hc|].
  by apply fix_last_changed, fix_first_changed.
Qed.

(** [unified_diff] of a list of lines with itself yields nothing. *)
Lemma unified_diff_same a fromfile tofile lineterm :
  unified_diff a a fromfile tofile lineterm = Some [].
Proof. unfold unified_diff. by rewrite get_grouped_opcodes_same. Qed.

Lemma splitlines_inj (old new : str) :
  splitlines old = splitlines new → old = new.
Proof.
  intros Heq. rewrite <- (concat_splitlines old), <- (concat_splitlines new).
  by rewrite Heq.
Qed.

End DiffFacts.

(** ** The diff properties of the specification *)

(** C8.  No-op: [build_diff_markdown(X, X, title)] is the empty string
    for every string [X], the empty one included, and every title. *)
Theorem diff_same (X title : str) :
  build_diff_markdown X X title = Some [].
Proof.
  unfold build_diff_markdown. by rewrite unified_diff_same.
Qed.

(** C9.  Sentinel exactness: for [old] and [new] that differ,
    [build_diff_markdown] returns a non-empty string that starts with the
    line ["### "] and the title; so the empty string is returned exactly
    when [old] and [new] are equal. *)
Theorem diff_sentinel_exact (old new title : str) :
  (old ≠ new →
   ∃ text, build_diff_markdown old new title = Some text
           ∧ text ≠ []
           ∧ startswith text (HEADING ++ title ++ [LF]) = true)
  ∧ (build_diff_markdown old new title = Some [] ↔ old = new).
Proof.
  assert (old ≠ new →
    ∃ text, build_diff_markdown old new title = Some text
            ∧ text ≠ []
            ∧ startswith text (HEADING ++ title ++ [LF]) = true)
    as Hchanged.
  { intros Hne. unfold build_diff_markdown.
    destruct (unified_diff_changed (splitlines old) (splitlines new)
                FROMFILE TOFILE [])
      as (diff & -> & Hdiff).
    { intros Heq. by apply Hne, splitlines_inj. }
    cbn [mbind option_bind]. destruct diff as [|line diff]; [done|].
    eexists. split; [done|]. split; [done|].
    apply startswith_prefix.
    exists (LF :: FENCE_OPEN ++ [LF] ++ concat (line :: diff)
            ++ [LF] ++ FENCE_CLOSE ++ [LF]).
    by rewrite <- !app_assoc. }
  split; [done|]. split.
  - intros Hempty. destruct (decide (old = new)) as [|Hne]; [done|].
    destruct (Hchanged Hne) as (text & Htext & Hnon & _). congruence.
  - intros ->. unfold build_diff_markdown. by rewrite unified_diff_same.
Qed.

Lemma diff_sentinel_exact_witness :
  ∃ text,
    build_diff_markdown (of_ascii "a" ++ [LF] ++ of_ascii "b" ++ [LF])
      (of_ascii "a" ++ [LF] ++ of_ascii "c" ++ [LF]) (of_ascii "T")
    = Some text
    ∧ text ≠ []
    ∧ startswith text (HEADING ++ of_ascii "T" ++ [LF]) = true.
Proof.
  apply (proj1 (diff_sentinel_exact
                  (of_ascii "a" ++ [LF] ++ of_ascii "b" ++ [LF])
                  (of_ascii "a" ++ [LF] ++ of_ascii "c" ++ [LF])
                  (of_ascii "T"))).
  intros Heq. discriminate Heq.
Defined.

(** * Further properties of the code *)

(** ** The changelog helpers and the changelog step *)

Section ChangelogMore.

Implicit Types s e body header content : str.
Implicit Types entries : list str.

Lemma parse_changelog_cases content :
  (startswith content TAGS_PREFIX = true
   ∧ find content ENTRY_START = None
   ∧ parse_changelog content = (content, []))
  ∨ (∃ i, startswith content TAGS_PREFIX = true
          ∧ find content ENTRY_START = Some i
          ∧ parse_changelog content
            = (take (i + 1) content, parse_body (drop (i + 1) content)))
  ∨ (startswith content TAGS_PREFIX = false
     ∧ parse_changelog content = (CHANGELOG_HEADER, parse_body content)).
Proof.
  unfold parse_changelog.
  destruct (startswith content TAGS_PREFIX) eqn:Htags; [|by right; right].
  destruct (find content ENTRY_START) as [i|] eqn:Hfind.
  - right; left. by exists i.
  - by left.
Qed.

Lemma parse_header_facts content :
  startswith (parse_changelog content).1 TAGS_PREFIX = true
  ∧ contains (parse_changelog content).1 ENTRY_START = false.
Proof.
  destruct (parse_changelog_cases content)
    as [(Htags & Hfind & ->)|[(i & Htags & Hfind & ->)|(Htags & ->)]]; simpl.
  - split; [done | by apply contains_false].
  - by destruct (parsed_header content i Htags Hfind) as (? & ? & _).
  - done.
Qed.

(** X1.  Whatever the content, the header [parse_changelog] returns
    starts with ["###### tags"] and holds no ["\n## "]; it is the default
    header when the content does not start with ["###### tags"], else
    the whole content when that holds no ["\n## "], else the content up
    to and with the newline of its first ["\n## "]. *)
Theorem parsed_header_tags content :
  startswith (parse_changelog content).1 TAGS_PREFIX = true
  ∧ absent ENTRY_START (parse_changelog content).1
  ∧ ((startswith content TAGS_PREFIX = false
      ∧ (parse_changelog content).1 = CHANGELOG_HEADER)
     ∨ (startswith content TAGS_PREFIX = true
        ∧ absent ENTRY_START content
        ∧ (parse_changelog content).1 = content)
     ∨ (∃ i, startswith content TAGS_PREFIX = true
             ∧ first_occurrence ENTRY_START content i
             ∧ (parse_changelog content).1 = take (i + 1) content)).
Proof.
  destruct (parse_header_facts content) as [Htags Hno].
  split; [done|]. split.
  { intros j. apply contains_false in Hno. by apply find_None. }
  destruct (parse_changelog_cases content)
    as [(Ht & Hfind & ->)|[(i & Ht & Hfind & ->)|(Ht & ->)]]; simpl.
  - right; left. split; [done|]. split; [|done].
    intros j. by apply find_None.
  - right; right. exists i. split; [done|]. split; [|done].
    apply find_Some in Hfind as (_ & Hat & Hlt). by split.
  - by left.
Qed.

Lemma delimited_no_separator e :
  delimited e → contains e ENTRY_SEPARATOR = false.
Proof.
  intros (_ & _ & Hlt)%find_Some. apply contains_false, find_absent.
  intros j. destruct (decide (j < length e)) as [Hj|Hj].
  - specialize (Hlt j Hj). rewrite drop_app_le in Hlt by lia.
    destruct (startswith (drop j e) ENTRY_SEPARATOR) eqn:E; [|done].
    apply startswith_prefix in E.
    assert (startswith (drop j e ++ ENTRY_SEPARATOR) ENTRY_SEPARATOR = true)
      as Hc by (apply startswith_prefix; by apply prefix_app_r).
    congruence.
  - by rewrite drop_ge by lia.
Qed.

Lemma split_no_separator body :
  Forall (λ e, contains e ENTRY_SEPARATOR = false)
    (split body ENTRY_SEPARATOR).
Proof.
  destruct (split_chunks body) as (chunks & c & -> & Hd & Hc).
  apply Forall_app. split; [|by constructor].
  eapply Forall_impl; [exact Hd|]. apply delimited_no_separator.
Qed.

(** The entries of a parse hold no separator and pass the test of the
    parser. *)
Lemma parse_changelog_clean content :
  Forall (λ e, contains e ENTRY_SEPARATOR = false ∧ is_entry e = true)
    (parse_changelog content).2.
Proof.
  assert (∀ body,
    Forall (λ e, contains e ENTRY_SEPARATOR = false ∧ is_entry e = true)
      (parse_body body)) as Hbody.
  { intros body. unfold parse_body.
    pose proof (split_no_separator body) as Hsplit.
    induction Hsplit as [|c chunks Hc _ IH]; simpl; [done|].
    destruct (is_entry c) eqn:Hentry; [by constructor | done]. }
  destruct (parse_changelog_cases content)
    as [(_ & _ & ->)|[(i & _ & _ & ->)|(_ & ->)]]; simpl; by try apply Hbody.
Qed.

(** X2.  Every entry [parse_changelog] returns holds no separator and
    starts with ["## "] once stripped. *)
Theorem parsed_entries_clean content :
  Forall (λ e, contains e ENTRY_SEPARATOR = false ∧ is_entry e = true)
    (parse_changelog content).2.
Proof. apply parse_changelog_clean. Qed.

Lemma join_cons sep x (parts : list str) :
  parts ≠ [] → join sep (x :: parts) = x ++ sep ++ join sep parts.
Proof. by destruct parts. Qed.

(** X3.  Splitting loses nothing: the chunks joined with the separator
    are the string that was split. *)
Theorem join_split s sep : sep ≠ [] → join sep (split s sep) = s.
Proof.
  intros Hsep. induction s as [s IH] using (induction_ltof1 _ (@length N)).
  unfold ltof in IH. rewrite split_unfold by done.
  destruct (find s sep) as [i|] eqn:Hfind; [|done].
  rewrite join_cons by by apply split_nonempty.
  rewrite IH.
  - symmetry. by apply find_Some_split.
  - apply find_Some_bound in Hfind. rewrite length_drop.
    destruct sep; [done | simpl in *; lia].
Qed.

Lemma join_split_witness :
  join ENTRY_SEPARATOR
    (split (make_entry 1 ++ ENTRY_SEPARATOR ++ make_entry 2) ENTRY_SEPARATOR)
  = make_entry 1 ++ ENTRY_SEPARATOR ++ make_entry 2.
Proof. apply join_split. discriminate. Defined.

(** The header [main] writes is the parsed one in every case: for an
    empty [existing] the parsed header is the default header. *)
Lemma update_changelog_eq max_entries file new_entry :
  update_changelog max_entries file new_entry
  = build_changelog (parse_changelog (default [] file)).1
      (update_entries max_entries new_entry
         (parse_changelog (default [] file)).2).
Proof.
  unfold update_changelog.
  replace (match file with Some text => text | None => [] end)
    with (default [] file) by by destruct file.
  destruct (default [] file) as [|c existing] eqn:E; [done|].
  by destruct (parse_changelog (c :: existing)).
Qed.

Lemma update_entries_head max_entries new_entry entries :
  ∃ rest, update_entries max_entries new_entry entries = new_entry :: rest
          ∧ rest `prefix_of` entries.
Proof.
  unfold update_entries. destruct (0 <? max_entries)%Z eqn:E.
  - assert (∃ n, Z.to_nat max_entries = S n) as [n ->]
      by (exists (Z.to_nat max_entries - 1); lia).
    simpl. exists (take n entries). split; [done | apply prefix_take].
  - by exists entries.
Qed.

Lemma parse_entries_delimited content :
  (∀ e, last (parse_changelog content).2 = Some e →
        endswith e SEPARATOR_HEAD = false) →
  Forall delimited (parse_changelog content).2.
Proof.
  destruct (parse_changelog_cases content)
    as [(_ & _ & ->)|[(i & _ & _ & ->)|(_ & ->)]]; simpl;
    [done | apply parse_body_delimited | apply parse_body_delimited].
Qed.

Lemma parse_entries_are_entries content :
  Forall (λ e, is_entry e = true) (parse_changelog content).2.
Proof.
  destruct (parse_changelog_cases content)
    as [(_ & _ & ->)|[(i & _ & _ & ->)|(_ & ->)]]; simpl;
    [done | apply Forall_filter_true | apply Forall_filter_true].
Qed.

Lemma parse_header_newline content :
  (startswith content TAGS_PREFIX = true →
   contains content ENTRY_START = false → endswith content [LF] = true) →
  endswith (parse_changelog content).1 [LF] = true.
Proof.
  intros Hnl. destruct (parse_changelog_cases content)
    as [(Htags & Hfind & ->)|[(i & Htags & Hfind & ->)|(Htags & ->)]]; simpl.
  - apply Hnl; [done | by apply contains_false].
  - by destruct (parsed_header content i Htags Hfind) as (_ & _ & ?).
  - done.
Qed.

(** *** Code points that go through the changelog step *)

(** The pieces [split] cuts hold code points of the text only. *)
Lemma split_Forall (P : N → Prop) (sep : str) :
  ∀ fuel (s : str), Forall P s → Forall (Forall P) (split_fuel fuel s sep).
Proof.
  induction fuel as [|fuel IH]; intros s Hs; simpl; [by repeat constructor|].
  destruct (find s sep) as [i|]; [|by repeat constructor].
  constructor; [by apply Forall_take|]. by apply IH, Forall_drop.
Qed.

Lemma parse_changelog_Forall (P : N → Prop) (content : str) :
  Forall P CHANGELOG_HEADER → Forall P content →
  Forall P (parse_changelog content).1
  ∧ Forall (Forall P) (parse_changelog content).2.
Proof.
  intros Hheader Hcontent.
  assert (∀ body, Forall P body → Forall (Forall P) (parse_body body))
    as Hbody.
  { intros body Hb. unfold parse_body. by apply Forall_filter, split_Forall. }
  destruct (parse_changelog_cases content)
    as [(_ & _ & ->)|[(i & _ & _ & ->)|(_ & ->)]]; simpl.
  - by split.
  - split; [by apply Forall_take | by apply Hbody, Forall_drop].
  - split; [done | by apply Hbody].
Qed.

(** The text the changelog step writes holds code points of the
    existing text, of the new entry and of the two constants only. *)
Lemma update_changelog_Forall (P : N → Prop) max_entries file new_entry :
  Forall P CHANGELOG_HEADER → Forall P ENTRY_SEPARATOR →
  Forall P (default [] file) → Forall P new_entry →
  Forall P (update_changelog max_entries file new_entry).
Proof.
  intros Hheader Hsep Hfile Hnew.
  rewrite update_changelog_eq, build_changelog_concat.
  destruct (parse_changelog_Forall P (default [] file) Hheader Hfile)
    as [Hh He].
  apply Forall_app. split; [done|].
  apply Forall_concat, Forall_fmap, Forall_forall. intros x Hx. cbn.
  apply Forall_app. split; [|done].
  revert x Hx. apply Forall_forall.
  unfold update_entries. destruct (0 <? max_entries)%Z.
  - apply Forall_take. by constructor.
  - by constructor.
Qed.

(** Reading leaves no CR, and changes nothing in a text without CR. *)
Lemma universal_newlines_Forall (P : N → Prop) :
  P LF → ∀ s : str, Forall P s → Forall P (universal_newlines s).
Proof.
  intros HLF s. induction s as [s IH] using (induction_ltof1 _ (@length N)).
  unfold ltof in IH. intros Hs. destruct s as [|c s]; [done|].
  apply Forall_cons in Hs as [Hc Hs]. cbn [universal_newlines].
  destruct (c =? CR)%N.
  - constructor; [done|]. destruct s as [|d s]; [done|].
    apply Forall_cons in Hs as [Hd Hs].
    destruct (d =? LF)%N; apply IH; simpl; try lia; by try constructor.
  - constructor; [done|]. apply IH; [simpl; lia | done].
Qed.

Lemma universal_newlines_no_CR (s : str) :
  Forall (λ c, c ≠ CR) (universal_newlines s).
Proof.
  induction s as [s IH] using (induction_ltof1 _ (@length N)).
  unfold ltof in IH. destruct s as [|c s]; [done|].
  cbn [universal_newlines]. destruct (N.eqb_spec c CR) as [->|Hc].
  - constructor; [done|]. destruct s as [|d s]; [done|].
    destruct (d =? LF)%N; apply IH; simpl; lia.
  - constructor; [done|]. apply IH. simpl; lia.
Qed.

Lemma universal_newlines_id (s : str) :
  Forall (λ c, c ≠ CR) s → universal_newlines s = s.
Proof.
  induction 1 as [|c s Hc _ IH]; [done|]. cbn [universal_newlines].
  destruct (N.eqb_spec c CR) as [|_]; [done|]. by rewrite IH.
Qed.

Lemma encodable_Forall (s : str) : encodable s = true ↔ Forall (λ c, is_surrogate c = false) s.
Proof.
  unfold encodable. induction s as [|c s IH]; simpl; [done|].
  rewrite andb_true_iff, negb_true_iff, IH, Forall_cons. done.
Qed.

(** What the changelog step writes can be encoded when the text it read
    and the new entry can. *)
Lemma update_changelog_ok max_entries (existing : option str)
    (new_entry : str) :
  encodable (default [] existing) = true →
  encodable new_entry = true →
  encodable (update_changelog max_entries existing new_entry) = true.
Proof.
  rewrite !encodable_Forall. intros Hexisting Hnew.
  apply update_changelog_Forall; try done;
    apply encodable_Forall; reflexivity.
Qed.

(** X4.  What one run writes, the next run reads.  The existing text is
    one without CR, as every text read from a file is.  Take an existing
    text and a new entry that can be encoded, the entry without CR,
    starting with ["## "], kept by the parser, holding no separator and
    not ending with ["\n---\n"]; let the last entry of the existing text
    not end with ["\n---\n"], and let an existing text that is a header
    without entries end with a newline.  Then writing the file goes
    through, reading it back gives the written text as it is, and
    parsing that gives the header of the existing text and the new entry
    followed by the old ones, cut to the maximum; with a positive
    maximum the file never holds more entries than that. *)
Theorem update_changelog_readback (max_entries : Z) (file : option str)
    (new_entry : str) :
  encodable (default [] file) = true →
  encodable new_entry = true →
  Forall (λ c, c ≠ CR) (default [] file) →
  Forall (λ c, c ≠ CR) new_entry →
  startswith new_entry ENTRY_MARK = true →
  is_entry new_entry = true →
  contains new_entry ENTRY_SEPARATOR = false →
  endswith new_entry SEPARATOR_HEAD = false →
  (∀ e, last (parse_changelog (default [] file)).2 = Some e →
        endswith e SEPARATOR_HEAD = false) →
  (startswith (default [] file) TAGS_PREFIX = true →
   contains (default [] file) ENTRY_START = false →
   endswith (default [] file) [LF] = true) →
  write_text (update_changelog max_entries file new_entry)
  = (Holds (update_changelog max_entries file new_entry), true)
  ∧ read_text (write_text (update_changelog max_entries file new_entry)).1
    = Some (Some (update_changelog max_entries file new_entry))
  ∧ parse_changelog (update_changelog max_entries file new_entry)
    = ((parse_changelog (default [] file)).1,
       update_entries max_entries new_entry
         (parse_changelog (default [] file)).2)
  ∧ ((0 < max_entries)%Z →
     (Z.of_nat (length (parse_changelog
                          (update_changelog max_entries file new_entry)).2)
      ≤ max_entries)%Z).
Proof.
  intros Hfile_ok Hnew_ok Hfile Hnew Hmark Hentry Hsep Htail Hlast Hnl.
  assert (write_text (update_changelog max_entries file new_entry)
          = (Holds (update_changelog max_entries file new_entry), true))
    as Hwrite.
  { unfold write_text. by rewrite update_changelog_ok. }
  split; [done|]. rewrite Hwrite. split.
  { cbn [read_text fst]. rewrite universal_newlines_id; [done|].
    apply update_changelog_Forall; try done; by repeat constructor. }
  assert (parse_changelog (update_changelog max_entries file new_entry)
          = ((parse_changelog (default [] file)).1,
             update_entries max_entries new_entry
               (parse_changelog (default [] file)).2)) as Heq.
  { rewrite update_changelog_eq.
    destruct (parse_header_facts (default [] file)) as [Htags Hclean].
    destruct (update_entries_head max_entries new_entry
                (parse_changelog (default [] file)).2)
      as (rest & Hupd & [k Hk]).
    pose proof (parse_entries_delimited _ Hlast) as Hd.
    pose proof (parse_entries_are_entries (default [] file)) as He.
    rewrite Hk in Hd, He.
    apply Forall_app in Hd as [Hd _]. apply Forall_app in He as [He _].
    rewrite Hupd. apply roundtrip_core; try done.
    - intros _. by apply parse_header_newline.
    - by intros e [= <-].
    - constructor; [by apply delimited_intro | done].
    - by constructor. }
  split; [done|]. intros Hpos. rewrite Heq. simpl.
  unfold update_entries. assert ((0 <? max_entries)%Z = true) as -> by lia.
  rewrite length_take. lia.
Qed.

Lemma update_changelog_readback_witness :
  write_text (update_changelog 2 (Some (make_changelog 2)) (make_entry 3))
  = (Holds (update_changelog 2 (Some (make_changelog 2)) (make_entry 3)),
     true)
  ∧ read_text
      (write_text
         (update_changelog 2 (Some (make_changelog 2)) (make_entry 3))).1
    = Some (Some (update_changelog 2 (Some (make_changelog 2))
                    (make_entry 3)))
  ∧ parse_changelog
      (update_changelog 2 (Some (make_changelog 2)) (make_entry 3))
    = ((parse_changelog (default [] (Some (make_changelog 2)))).1,
       update_entries 2 (make_entry 3)
         (parse_changelog (default [] (Some (make_changelog 2)))).2)
  ∧ ((0 < 2)%Z →
     (Z.of_nat (length (parse_changelog
                          (update_changelog 2 (Some (make_changelog 2))
                             (make_entry 3))).2) ≤ 2)%Z).
Proof.
  apply (update_changelog_readback 2 (Some (make_changelog 2)) (make_entry 3)).
  - reflexivity.
  - reflexivity.
  - vm_compute. repeat constructor; discriminate.
  - vm_compute. repeat constructor; discriminate.
  - reflexivity.
  - reflexivity.
  - reflexivity.
  - reflexivity.
  - intros e [= <-]. reflexivity.
  - intros _ H. discriminate H.
Defined.

(** X5.  The file the changelog step writes always starts with
    ["###### tags"], whatever the existing file, the new entry and the
    maximum. *)
Theorem update_changelog_tags (max_entries : Z) (file : option str)
    (new_entry : str) :
  startswith (update_changelog max_entries file new_entry) TAGS_PREFIX = true.
Proof.
  rewrite update_changelog_eq, build_changelog_concat.
  apply startswith_prefix, prefix_app_r, startswith_prefix.
  apply parse_header_facts.
Qed.

(** X6.  A missing changelog file and an empty one are treated alike:
    the file written is the default header, the new entry and one
    separator, whatever the maximum. *)
Theorem update_changelog_first_run (max_entries : Z) (new_entry : str) :
  update_changelog max_entries None new_entry
  = CHANGELOG_HEADER ++ new_entry ++ ENTRY_SEPARATOR
  ∧ update_changelog max_entries (Some []) new_entry
    = CHANGELOG_HEADER ++ new_entry ++ ENTRY_SEPARATOR.
Proof.
  assert (update_entries max_entries new_entry [] = [new_entry]) as Hupd.
  { destruct (update_entries_head max_entries new_entry [])
      as (rest & -> & ->%prefix_nil_inv). done. }
  split; rewrite update_changelog_eq; simpl default;
    change (parse_changelog []) with (CHANGELOG_HEADER, @nil str);
    cbn [fst snd]; by rewrite Hupd.
Qed.

End ChangelogMore.

(** ** The diff helper on one-sided and on changed input *)

Section MatcherMore.
Context `{Countable A}.
Import Difflib.

Implicit Types a b : list A.

Lemma scan_rows_no_keys (sm : matcher A) blo bhi rows :
  b2j sm = ∅ →
  ∀ j2len best, scan_rows sm blo bhi rows j2len best = best.
Proof.
  intros Hb2j. induction rows as [|i rows IH]; intros j2len best; [done|].
  simpl. rewrite Hb2j.
  destruct (sm_a sm !! i); [rewrite lookup_empty|]; simpl; apply IH.
Qed.

Lemma extend_right_no_b (sm : matcher A) junk ahi besti :
  ∀ fuel, extend_right fuel sm junk ahi 0 besti 0 0 = 0.
Proof.
  intros [|fuel]; [done|]. simpl.
  by rewrite andb_false_r.
Qed.

(** With nothing on the [a] side the only block is the sentinel. *)
Lemma get_matching_blocks_no_a b :
  get_matching_blocks (SequenceMatcher [] b) = Some [(0, length b, 0)].
Proof. done. Qed.

(** With nothing on the [b] side the only block is the sentinel. *)
Lemma get_matching_blocks_no_b a :
  get_matching_blocks (SequenceMatcher a []) = Some [(length a, 0, 0)].
Proof.
  unfold get_matching_blocks. rewrite Nat.add_1_r.
  cbn [matching_loop sm_a sm_b SequenceMatcher length].
  assert (find_longest_match (SequenceMatcher a []) 0 (length a) 0 0
          = (0, 0, 0)) as ->.
  { unfold find_longest_match. rewrite scan_rows_no_keys by done.
    cbn [fst snd extend_left]. rewrite extend_right_no_b.
    cbn [extend_left]. by rewrite extend_right_no_b. }
  cbn [Nat.eqb]. by rewrite matching_loop_nil.
Qed.

Lemma get_grouped_opcodes_no_a b :
  b ≠ [] →
  get_grouped_opcodes (SequenceMatcher [] b) 3
  = Some [[(Insert, 0, 0, 0, length b)]].
Proof.
  intros Hb. unfold get_grouped_opcodes, get_opcodes.
  rewrite get_matching_blocks_no_a. by destruct b.
Qed.

Lemma get_grouped_opcodes_no_b a :
  a ≠ [] →
  get_grouped_opcodes (SequenceMatcher a []) 3
  = Some [[(Delete, 0, length a, 0, 0)]].
Proof.
  intros Ha. unfold get_grouped_opcodes, get_opcodes.
  rewrite get_matching_blocks_no_b. by destruct a.
Qed.

Lemma slice_all {B} (l : list B) : slice l 0 (length l) = l.
Proof. unfold slice. by rewrite drop_0, firstn_all. Qed.

End MatcherMore.

Section DiffMore.
Import Difflib.

Implicit Types a b : list str.
Implicit Types fromfile tofile lineterm : str.

Lemma splitlines_nonempty (s : str) : s ≠ [] → splitlines s ≠ [].
Proof.
  intros Hs Hnil. apply Hs. rewrite <- (concat_splitlines s). by rewrite Hnil.
Qed.

Lemma unified_diff_no_a b fromfile tofile lineterm :
  b ≠ [] →
  unified_diff [] b fromfile tofile lineterm
  = Some ([of_ascii "--- " ++ fromfile ++ lineterm;
           of_ascii "+++ " ++ tofile ++ lineterm;
           of_ascii "@@ -0,0 +" ++ _format_range_unified 0 (length b)
           ++ of_ascii " @@" ++ lineterm]
          ++ ((λ line, of_ascii "+" ++ line) <$> b)).
Proof.
  intros Hb. unfold unified_diff. rewrite get_grouped_opcodes_no_a by done.
  cbn [fmap option_fmap option_map diff_lines group_lines head last default
       fst snd fmap list_fmap concat opcode_lines app].
  rewrite slice_all, !app_nil_r. reflexivity.
Qed.

Lemma unified_diff_no_b a fromfile tofile lineterm :
  a ≠ [] →
  unified_diff a [] fromfile tofile lineterm
  = Some ([of_ascii "--- " ++ fromfile ++ lineterm;
           of_ascii "+++ " ++ tofile ++ lineterm;
           of_ascii "@@ -" ++ _format_range_unified 0 (length a)
           ++ of_ascii " +0,0 @@" ++ lineterm]
          ++ ((λ line, of_ascii "-" ++ line) <$> a)).
Proof.
  intros Ha. unfold unified_diff. rewrite get_grouped_opcodes_no_b by done.
  cbn [fmap option_fmap option_map diff_lines group_lines head last default
       fst snd fmap list_fmap concat opcode_lines app].
  rewrite slice_all, !app_nil_r. reflexivity.
Qed.

(** The first three lines [unified_diff] yields for lists that differ:
    the two file lines and the [@@] line of the first hunk. *)
Lemma unified_diff_changed_shape a b fromfile tofile lineterm :
  a ≠ b →
  ∃ range rest,
    unified_diff a b fromfile tofile lineterm
    = Some ((of_ascii "--- " ++ fromfile ++ lineterm)
            :: (of_ascii "+++ " ++ tofile ++ lineterm)
            :: (of_ascii "@@ -" ++ range) :: rest).
Proof.
  intros Hne. unfold unified_diff, get_grouped_opcodes, get_opcodes.
  destruct (get_matching_blocks_tiling a b) as (blocks & -> & Ht & Hlast).
  cbn [fmap option_fmap option_map mbind option_bind].
  match goal with |- context [group_from ?n ?codes []] =>
    assert (group_from n codes [] ≠ []) as Hgroups;
    [|destruct (group_from n codes []) as [|group groups]; [done|]]
  end.
  { apply group_from_changed. left.
    pose proof (opcodes_changed a b blocks Ht Hlast Hne) as Hc.
    destruct (opcodes_from 0 0 blocks) as [|c codes];
      [by apply Exists_nil in Hc|].
    by apply fix_last_changed, fix_first_changed. }
  eexists _, _. reflexivity.
Qed.

(** X7.  With nothing cached ([old] empty) and a non-empty [new], the
    section shows every line of [new] as added: after the heading and the
    opening fence come the two file lines and the hunk line
    ["@@ -0,0 +<range> @@"] (no line break between them, as [lineterm] is
    empty), then each line of [new.splitlines(keepends=True)] with ["+"]
    before it, then the closing fence. *)
Theorem diff_all_added (new title : str) :
  new ≠ [] →
  build_diff_markdown [] new title
  = Some (HEADING ++ title ++ [LF; LF] ++ FENCE_OPEN ++ [LF]
          ++ (of_ascii "--- " ++ FROMFILE) ++ (of_ascii "+++ " ++ TOFILE)
          ++ (of_ascii "@@ -0,0 +"
              ++ _format_range_unified 0 (length (splitlines new))
              ++ of_ascii " @@")
          ++ concat ((λ line, of_ascii "+" ++ line) <$> splitlines new)
          ++ [LF] ++ FENCE_CLOSE ++ [LF]).
Proof.
  intros Hnew. unfold build_diff_markdown.
  change (splitlines []) with (@nil str).
  rewrite unified_diff_no_a by by apply splitlines_nonempty.
  cbn [mbind option_bind app concat]. rewrite !app_nil_r.
  by rewrite <- !app_assoc.
Qed.

Lemma diff_all_added_witness :
  build_diff_markdown [] (of_ascii "a" ++ [LF] ++ of_ascii "b") (of_ascii "T")
  = Some (HEADING ++ of_ascii "T" ++ [LF; LF] ++ FENCE_OPEN ++ [LF]
          ++ (of_ascii "--- " ++ FROMFILE) ++ (of_ascii "+++ " ++ TOFILE)
          ++ (of_ascii "@@ -0,0 +"
              ++ _format_range_unified 0
                   (length (splitlines (of_ascii "a" ++ [LF] ++ of_ascii "b")))
              ++ of_ascii " @@")
          ++ concat ((λ line, of_ascii "+" ++ line)
                     <$> splitlines (of_ascii "a" ++ [LF] ++ of_ascii "b"))
          ++ [LF] ++ FENCE_CLOSE ++ [LF]).
Proof.
  apply (diff_all_added (of_ascii "a" ++ [LF] ++ of_ascii "b") (of_ascii "T")).
  intros Heq. discriminate Heq.
Defined.

(** The section for an empty [new]. *)
Lemma build_diff_markdown_no_new (old title : str) :
  old ≠ [] →
  build_diff_markdown old [] title
  = Some (HEADING ++ title ++ [LF; LF] ++ FENCE_OPEN ++ [LF]
          ++ (of_ascii "--- " ++ FROMFILE) ++ (of_ascii "+++ " ++ TOFILE)
          ++ (of_ascii "@@ -"
              ++ _format_range_unified 0 (length (splitlines old))
              ++ of_ascii " +0,0 @@")
          ++ concat ((λ line, of_ascii "-" ++ line) <$> splitlines old)
          ++ [LF] ++ FENCE_CLOSE ++ [LF]).
Proof.
  intros Hold. unfold build_diff_markdown.
  change (splitlines []) with (@nil str).
  rewrite unified_diff_no_b by by apply splitlines_nonempty.
  cbn [mbind option_bind app concat]. rewrite !app_nil_r.
  by rewrite <- !app_assoc.
Qed.

(** X8.  With a non-empty [old] and an empty [new], the section shows
    every line of [old] as removed: the hunk line is
    ["@@ -<range> +0,0 @@"] and each line of
    [old.splitlines(keepends=True)] follows with ["-"] before it. *)
Theorem diff_all_removed (old title : str) :
  old ≠ [] →
  build_diff_markdown old [] title
  = Some (HEADING ++ title ++ [LF; LF] ++ FENCE_OPEN ++ [LF]
          ++ (of_ascii "--- " ++ FROMFILE) ++ (of_ascii "+++ " ++ TOFILE)
          ++ (of_ascii "@@ -"
              ++ _format_range_unified 0 (length (splitlines old))
              ++ of_ascii " +0,0 @@")
          ++ concat ((λ line, of_ascii "-" ++ line) <$> splitlines old)
          ++ [LF] ++ FENCE_CLOSE ++ [LF]).
Proof. apply build_diff_markdown_no_new. Qed.

Lemma diff_all_removed_witness :
  build_diff_markdown (of_ascii "a" ++ [LF] ++ of_ascii "b") [] (of_ascii "T")
  = Some (HEADING ++ of_ascii "T" ++ [LF; LF] ++ FENCE_OPEN ++ [LF]
          ++ (of_ascii "--- " ++ FROMFILE) ++ (of_ascii "+++ " ++ TOFILE)
          ++ (of_ascii "@@ -"
              ++ _format_range_unified 0
                   (length (splitlines (of_ascii "a" ++ [LF] ++ of_ascii "b")))
              ++ of_ascii " +0,0 @@")
          ++ concat ((λ line, of_ascii "-" ++ line)
                     <$> splitlines (of_ascii "a" ++ [LF] ++ of_ascii "b"))
          ++ [LF] ++ FENCE_CLOSE ++ [LF]).
Proof.
  apply (diff_all_removed (of_ascii "a" ++ [LF] ++ of_ascii "b")
           (of_ascii "T")).
  intros Heq. discriminate Heq.
Defined.

(** The frame of the section for texts that differ. *)
Lemma build_diff_markdown_changed (old new title : str) :
  old ≠ new →
  ∃ hunks,
    build_diff_markdown old new title
    = Some (HEADING ++ title ++ [LF; LF] ++ FENCE_OPEN ++ [LF]
            ++ of_ascii "--- " ++ FROMFILE ++ of_ascii "+++ " ++ TOFILE
            ++ of_ascii "@@ -" ++ hunks ++ [LF] ++ FENCE_CLOSE ++ [LF]).
Proof.
  intros Hne. unfold build_diff_markdown.
  destruct (unified_diff_changed_shape (splitlines old) (splitlines new)
              FROMFILE TOFILE [])
    as (range & rest & ->).
  { intros Heq. by apply Hne, splitlines_inj. }
  cbn [mbind option_bind concat]. exists (range ++ concat rest).
  rewrite !app_nil_r. by rewrite <- !app_assoc.
Qed.

Lemma build_diff_markdown_same (X title : str) :
  build_diff_markdown X X title = Some [].
Proof. unfold build_diff_markdown. by rewrite unified_diff_same. Qed.

(** X9.  For [old] and [new] that differ the section has a fixed frame:
    the heading with the title, a blank line, the opening fence
    ["```diff"], then - on one line, because [lineterm] is empty -
    ["--- "] with the from-file name, ["+++ "] with the to-file name and
    the start ["@@ -"] of the first hunk line; it ends with a line break,
    the closing fence and a line break. *)
Theorem diff_changed_frame (old new title : str) :
  old ≠ new →
  ∃ hunks,
    build_diff_markdown old new title
    = Some (HEADING ++ title ++ [LF; LF] ++ FENCE_OPEN ++ [LF]
            ++ of_ascii "--- " ++ FROMFILE ++ of_ascii "+++ " ++ TOFILE
            ++ of_ascii "@@ -" ++ hunks ++ [LF] ++ FENCE_CLOSE ++ [LF]).
Proof. apply build_diff_markdown_changed. Qed.

Lemma diff_changed_frame_witness :
  ∃ hunks,
    build_diff_markdown (of_ascii "a" ++ [LF] ++ of_ascii "b" ++ [LF])
      (of_ascii "a" ++ [LF] ++ of_ascii "c" ++ [LF]) (of_ascii "T")
    = Some (HEADING ++ of_ascii "T" ++ [LF; LF] ++ FENCE_OPEN ++ [LF]
            ++ of_ascii "--- " ++ FROMFILE ++ of_ascii "+++ " ++ TOFILE
            ++ of_ascii "@@ -" ++ hunks ++ [LF] ++ FENCE_CLOSE ++ [LF]).
Proof.
  apply (diff_changed_frame
           (of_ascii "a" ++ [LF] ++ of_ascii "b" ++ [LF])
           (of_ascii "a" ++ [LF] ++ of_ascii "c" ++ [LF]) (of_ascii "T")).
  intros Heq. discriminate Heq.
Defined.

End DiffMore.

(** ** The sample data of the tests, for every number of entries *)

Section SampleFacts.

(** Code points that differ from the first one of [sub] are skipped by
    [find]. *)
Lemma find_from_skip i (l rest : str) c (sub : str) :
  Forall (λ x, x ≠ c) l →
  find_from i (l ++ rest) (c :: sub) = find_from (i + length l) rest (c :: sub).
Proof.
  intros Hl. revert i. induction Hl as [|x l Hx _ IH]; intros i.
  - simpl. by rewrite Nat.add_0_r.
  - rewrite <- app_comm_cons, find_from_cons.
    cbn [startswith]. destruct (N.eqb_spec x c) as [|_]; [done|].
    cbn [andb]. rewrite IH. f_equal. simpl. lia.
Qed.

Lemma string_of_uint_no_LF d :
  Forall (λ x, x ≠ LF) (of_ascii (NilEmpty.string_of_uint d)).
Proof.
  induction d; cbn; constructor; done.
Qed.

Lemma format_02d_no_LF n : Forall (λ x, x ≠ LF) (format_02d n).
Proof.
  unfold format_02d, format_nat. destruct (n <? 10).
  - constructor; [done | apply string_of_uint_no_LF].
  - apply string_of_uint_no_LF.
Qed.

Lemma make_entry_mark n : startswith (make_entry n) ENTRY_MARK = true.
Proof. done. Qed.

Lemma make_entry_is_entry n : is_entry (make_entry n) = true.
Proof.
  apply (is_entry_mark _ 50%N); [|done].
  unfold make_entry. cbn. left.
Qed.

Lemma make_entry_no_separator n :
  contains (make_entry n) ENTRY_SEPARATOR = false.
Proof.
  apply contains_false. unfold find, make_entry, ENTRY_SEPARATOR.
  rewrite find_from_skip by (by cbv; repeat constructor).
  rewrite find_from_skip by apply format_02d_no_LF.
  reflexivity.
Qed.

Lemma make_entry_tail n : endswith (make_entry n) SEPARATOR_HEAD = false.
Proof.
  unfold endswith, make_entry. rewrite !rev_app_distr. reflexivity.
Qed.

(** X10.  The tests' sample changelog parses back for every size: the
    header is [CHANGELOG_HEADER] and the entries are [make_entry 1], ...,
    [make_entry n], in that order. *)
Theorem parse_make_changelog (n : nat) :
  parse_changelog (make_changelog n)
  = (CHANGELOG_HEADER, (λ i, make_entry (i + 1)) <$> seq 0 n).
Proof.
  unfold make_changelog. apply roundtrip_core; try done.
  - intros e He. apply head_Some_elem_of in He.
    apply list_elem_of_fmap in He as (i & -> & _). apply make_entry_mark.
  - apply Forall_fmap, Forall_forall. intros i _. cbn [compose].
    apply delimited_intro;
      [apply make_entry_no_separator | apply make_entry_tail].
  - apply Forall_fmap, Forall_forall. intros i _. apply make_entry_is_entry.
Qed.

End SampleFacts.

(** ** Texts that can be encoded *)

Section EncodeFacts.
Import Difflib.

(** A code point UTF-8 encodes. *)
Abbreviation ok := (λ c : N, is_surrogate c = false).












End EncodeFacts.

(** ** The run of [main] *)

Section MainFacts.

Implicit Types e : env.
Implicit Types fs : files.

(** The diff helper always returns: the empty string for equal texts, a
    text that starts with the heading otherwise. *)
Lemma build_diff_markdown_cases (old new title : str) :
  (old = new ∧ build_diff_markdown old new title = Some [])
  ∨ (old ≠ new
     ∧ ∃ rest, build_diff_markdown old new title = Some (HEADING ++ rest)).
Proof.
  destruct (decide (old = new)) as [->|Hne].
  - left. split; [done | apply build_diff_markdown_same].
  - right. split; [done|].
    destruct (build_diff_markdown_changed old new title Hne) as [hunks ->].
    by eexists.
Qed.

Lemma truthy_heading (rest : str) : truthy (HEADING ++ rest) = true.
Proof. done. Qed.


(** Saving the two texts goes through exactly if both can be encoded. *)
Lemma save_cache_two (g c : str) fs :
  save_cache {[ "gemini_cli" := g; "github_copilot" := c ]} fs
  = if encodable g && encodable c then
      (Files (Holds {[ "gemini_cli" := g; "github_copilot" := c ]})
         (changelog_file fs) (output_file fs), true)
    else (Files Unreadable (changelog_file fs) (output_file fs), false).
Proof.
  unfold save_cache.
  destruct (encodable g) eqn:Eg, (encodable c) eqn:Ec; cbn [andb].
  - rewrite bool_decide_eq_true_2; [done|].
    apply map_Forall_insert_2; [done|]. by apply map_Forall_singleton.
  - rewrite bool_decide_eq_false_2; [done|]. intros Hall.
    apply map_Forall_insert_1_2 in Hall; [|done].
    apply map_Forall_singleton in Hall. congruence.
  - rewrite bool_decide_eq_false_2; [done|]. intros Hall.
    apply map_Forall_insert_1_1 in Hall. congruence.
  - rewrite bool_decide_eq_false_2; [done|]. intros Hall.
    apply map_Forall_insert_1_1 in Hall. congruence.
Qed.



(** A run whose fetched texts differ from the cached ones, on a
    changelog that can be read: the diff sections, and the outcome and
    the files in each of the ways the run can go on. *)
Lemma main_changed_sources e fs cache existing (g c : str) :
  truthy (GEMINI_API_KEY e) = true →
  load_cache fs = Some cache →
  fetch_gemini_cli_docs e = Some g →
  fetch_github_copilot_docs e = Some c →
  cache_get cache "gemini_cli" ≠ g ∨ cache_get cache "github_copilot" ≠ c →
  read_text (changelog_file fs) = Some existing →
  ∃ dg dc,
    build_diff_markdown (cache_get cache "gemini_cli") g GEMINI_TITLE
    = Some dg
    ∧ build_diff_markdown (cache_get cache "github_copilot") c COPILOT_TITLE
      = Some dc
    ∧ (dg = [] ∨ ∃ r, dg = HEADING ++ r)
    ∧ (dc = [] ∨ ∃ r, dc = HEADING ++ r)
    ∧ main e fs
      = Some
          (let text :=
             update_changelog (CHANGELOG_MAX_ENTRIES e) existing
               (build_new_entry (now_str e) (bool_decide (cache = ∅))
                  dg dc) in
           let saved :=
             Holds {[ "gemini_cli" := g; "github_copilot" := c ]} in
           if encodable text then
             if encodable g && encodable c then
               match translate_with_gemini e g GEMINI_TITLE,
                     translate_with_gemini e c COPILOT_TITLE with
               | Some gt, Some ct =>
                   if encodable (output_text (now_str e) gt ct) then
                     (Return,
                      Files saved (Holds text)
                        (Holds (output_text (now_str e) gt ct)))
                   else (Raise, Files saved (Holds text) (Holds []))
               | _, _ => (Raise, Files saved (Holds text) (output_file fs))
               end
             else (Raise, Files Unreadable (Holds text) (output_file fs))
           else (Raise, Files (cache_file fs) (Holds []) (output_file fs))).
Proof.
  intros Hkey Hload Hg Hc Hne Hread. unfold main.
  rewrite Hkey, Hload, Hg, Hc. cbn [negb].
  assert (∀ dg dc : str,
    truthy dg || truthy dc = true →
    (let step4 :=
       if truthy dg || truthy dc then
         match read_text (changelog_file fs) with
         | Some existing0 =>
             ({| cache_file := cache_file fs;
                 changelog_file :=
                   (write_text
                      (update_changelog (CHANGELOG_MAX_ENTRIES e) existing0
                         (build_new_entry (now_str e)
                            (bool_decide (cache = ∅)) dg dc))).1;
                 output_file := output_file fs |},
              (write_text
                 (update_changelog (CHANGELOG_MAX_ENTRIES e) existing0
                    (build_new_entry (now_str e) (bool_decide (cache = ∅))
                       dg dc))).2)
         | None => (fs, false)
         end
       else (fs, true) in
     if negb step4.2 then Some (Raise, step4.1)
     else
       let step5 :=
         save_cache {[ "gemini_cli" := g; "github_copilot" := c ]} step4.1 in
       if negb step5.2 then Some (Raise, step5.1)
       else if negb (truthy dg) && negb (truthy dc) then Some (Return, step5.1)
       else
         match translate_with_gemini e g GEMINI_TITLE with
         | Some gt =>
             match translate_with_gemini e c COPILOT_TITLE with
             | Some ct =>
                 Some (if (write_text (output_text (now_str e) gt ct)).2
                       then Return else Raise,
                       {| cache_file := cache_file step5.1;
                          changelog_file := changelog_file step5.1;
                          output_file :=
                            (write_text (output_text (now_str e) gt ct)).1 |})
             | None => Some (Raise, step5.1)
             end
         | None => Some (Raise, step5.1)
         end)
    = Some
        (let text :=
           update_changelog (CHANGELOG_MAX_ENTRIES e) existing
             (build_new_entry (now_str e) (bool_decide (cache = ∅)) dg dc) in
         let saved :=
           Holds {[ "gemini_cli" := g; "github_copilot" := c ]} in
         if encodable text then
           if encodable g && encodable c then
             match translate_with_gemini e g GEMINI_TITLE,
                   translate_with_gemini e c COPILOT_TITLE with
             | Some gt, Some ct =>
                 if encodable (output_text (now_str e) gt ct) then
                   (Return,
                    Files saved (Holds text)
                      (Holds (output_text (now_str e) gt ct)))
                 else (Raise, Files saved (Holds text) (Holds []))
             | _, _ => (Raise, Files saved (Holds text) (output_file fs))
             end
           else (Raise, Files Unreadable (Holds text) (output_file fs))
         else (Raise, Files (cache_file fs) (Holds []) (output_file fs))))
    as Hrun.
  { intros dg dc Hchanged. cbn zeta. rewrite Hchanged, Hread.
    assert (negb (truthy dg) && negb (truthy dc) = false) as ->
      by (by destruct (truthy dg), (truthy dc)).
    unfold write_text.
    destruct (encodable (update_changelog _ _ _)); cbn [fst snd negb];
      [|done].
    rewrite save_cache_two.
    destruct (encodable g && encodable c); cbn [fst snd negb]; [|done].
    destruct (translate_with_gemini e g GEMINI_TITLE) as [gt|]; [|done].
    destruct (translate_with_gemini e c COPILOT_TITLE) as [ct|]; [|done].
    by destruct (encodable (output_text (now_str e) gt ct)). }
  destruct (build_diff_markdown_cases (cache_get cache "gemini_cli") g
              GEMINI_TITLE) as [[Eg ->]|[_ [rg ->]]];
  destruct (build_diff_markdown_cases (cache_get cache "github_copilot") c
              COPILOT_TITLE) as [[Ec ->]|[_ [rc ->]]].
  - by destruct Hne.
  - exists [], (HEADING ++ rc). repeat split; eauto;
      cbn [mbind option_bind]; by apply Hrun.
  - exists (HEADING ++ rg), []. repeat split; eauto;
      cbn [mbind option_bind]; by apply Hrun.
  - exists (HEADING ++ rg), (HEADING ++ rc). repeat split; eauto;
      cbn [mbind option_bind]; by apply Hrun.
Qed.














End MainFacts.

(** ** The clean-up of the fetched page *)

Section CleanFacts.

Lemma absent_drop (sub s : str) n : absent sub s → absent sub (drop n s).
Proof. intros Hs j. rewrite drop_drop. apply Hs. Qed.

Lemma absent_take (sub s : str) n : absent sub s → absent sub (take n s).
Proof.
  intros Hs j. destruct (startswith (drop j (take n s)) sub) eqn:E; [|done].
  rewrite <- (Hs j). symmetry. apply startswith_prefix.
  apply startswith_prefix in E. etrans; [done|].
  rewrite <- (take_drop n s) at 2.
  destruct (decide (j ≤ length (take n s))).
  - rewrite drop_app_le by done. by apply prefix_app_r.
  - rewrite (drop_ge (take n s)) by lia. apply prefix_nil.
Qed.

(** [lstrip] drops a number of code points from the left. *)
Lemma lstrip_drop (s : str) : ∃ k, lstrip s = drop k s.
Proof.
  induction s as [|c s [k IH]]; [by exists 0|].
  simpl. destruct (isspace c); [by exists (S k) | by exists 0].
Qed.

(** [rstrip] keeps a number of code points from the left. *)
Lemma rstrip_take (s : str) : ∃ k, rstrip s = take k s.
Proof.
  unfold rstrip. destruct (lstrip_drop (rev s)) as [k ->].
  exists (length s - k). by rewrite skipn_rev, rev_involutive.
Qed.

(** The text [strip] returns neither starts nor ends with white
    space. *)
Lemma strip_ends (s : str) c :
  head (strip s) = Some c ∨ last (strip s) = Some c → isspace c = false.
Proof.
  unfold strip. intros [Hh|Hl]; [|by apply (rstrip_last (lstrip s))].
  destruct (rstrip_take (lstrip s)) as [k Hk]. rewrite Hk in Hh.
  apply (lstrip_head s). destruct k; [done|].
  by destruct (lstrip s).
Qed.

Lemma strip_absent (sub s : str) : absent sub s → absent sub (strip s).
Proof.
  intros Hs. unfold strip.
  destruct (rstrip_take (lstrip s)) as [k ->].
  destruct (lstrip_drop s) as [k' ->].
  by apply absent_take, absent_drop.
Qed.

Lemma flush_newlines_spec run :
  ∃ k, k ≤ 2 ∧ flush_newlines run = replicate k LF.
Proof.
  unfold flush_newlines. destruct (Nat.leb_spec 3 run).
  - by exists 2.
  - exists run. split; [lia | done].
Qed.

Lemma absent_newlines k : k ≤ 2 → absent [LF; LF; LF] (replicate k LF).
Proof.
  intros Hk j. destruct k as [|[|[|k]]]; [| | |lia];
    by destruct j as [|[|[|j]]].
Qed.

(** A run of at most two newlines before another code point. *)
Lemma absent_run k c (v : str) :
  (c =? LF)%N = false → k ≤ 2 → absent [LF; LF; LF] v →
  absent [LF; LF; LF] (replicate k LF ++ c :: v).
Proof.
  intros Hc Hk Hv j. destruct k as [|[|[|k]]]; [| | |lia];
    destruct j as [|[|[|j]]]; cbn [replicate app drop startswith];
    rewrite ?Hc, ?andb_false_r; try done; apply Hv.
Qed.

Lemma sub_newlines_absent (s : str) :
  ∀ run, absent [LF; LF; LF] (sub_newlines run s).
Proof.
  induction s as [|c s IH]; intros run; cbn [sub_newlines].
  - destruct (flush_newlines_spec run) as (k & Hk & ->).
    by apply absent_newlines.
  - destruct (c =? LF)%N eqn:Hc; [apply IH|].
    destruct (flush_newlines_spec run) as (k & Hk & ->).
    by apply absent_run.
Qed.

Lemma sub_newlines_filter (s : str) :
  ∀ run,
    List.filter (λ c, negb (c =? LF)%N) (sub_newlines run s)
    = List.filter (λ c, negb (c =? LF)%N) s.
Proof.
  assert (∀ run, List.filter (λ c, negb (c =? LF)%N) (flush_newlines run) = [])
    as Hflush.
  { intros run. destruct (flush_newlines_spec run) as (k & _ & ->).
    induction k as [|k IH]; [done|]. simpl. apply IH. }
  induction s as [|c s IH]; intros run; cbn [sub_newlines].
  - apply Hflush.
  - cbn [List.filter]. destruct (c =? LF)%N eqn:Hc; cbn [negb]; [apply IH|].
    rewrite List.filter_app, Hflush. cbn [app List.filter].
    by rewrite Hc, IH.
Qed.

Lemma replicate_S_app {B} n (x : B) (l : list B) :
  replicate (S n) x ++ l = replicate n x ++ x :: l.
Proof.
  cbn [replicate]. by rewrite replicate_cons_app, <- app_assoc.
Qed.

(** A text without three newlines in a row is not changed. *)
Lemma sub_newlines_id (s : str) :
  ∀ run,
    absent [LF; LF; LF] (replicate run LF ++ s) →
    sub_newlines run s = replicate run LF ++ s.
Proof.
  assert (∀ run (t : str), absent [LF; LF; LF] (replicate run LF ++ t) →
            flush_newlines run = replicate run LF) as Hflush.
  { intros run t Ht. unfold flush_newlines.
    destruct (Nat.leb_spec 3 run) as [Hrun|]; [|done].
    destruct run as [|[|[|run]]]; [lia..|]. specialize (Ht 0).
    simpl in Ht. by rewrite startswith_nil in Ht. }
  induction s as [|c s IH]; intros run Hs; cbn [sub_newlines].
  - rewrite app_nil_r. by apply (Hflush run []).
  - destruct (N.eqb_spec c LF) as [->|Hc].
    + rewrite IH; by rewrite replicate_S_app.
    + rewrite (Hflush run (c :: s) Hs). f_equal. f_equal.
      apply (IH 0). intros j. specialize (Hs (run + 1 + j)).
      rewrite <- drop_drop, <- drop_drop in Hs.
      rewrite drop_app_length' in Hs by by rewrite length_replicate.
      done.
Qed.

(** X15.  The text [fetch_github_copilot_docs] returns holds no three
    newlines in a row, and neither its first nor its last code point is
    white space, whatever the lines collected from the page. *)
Theorem clean_content_tidy (lines : list str) :
  contains (clean_content lines) [LF; LF; LF] = false
  ∧ ∀ c, head (clean_content lines) = Some c
         ∨ last (clean_content lines) = Some c →
         isspace c = false.
Proof.
  split.
  - apply contains_false, find_absent.
    apply strip_absent, sub_newlines_absent.
  - intros c. apply strip_ends.
Qed.

Lemma clean_content_tidy_witness :
  contains
    (clean_content [[LF] ++ of_ascii "## a" ++ [LF]; [LF] ++ of_ascii "b"
                    ++ [LF]])
    [LF; LF; LF] = false
  ∧ isspace 35 = false.
Proof.
  split.
  - apply (clean_content_tidy
             [[LF] ++ of_ascii "## a" ++ [LF]; [LF] ++ of_ascii "b" ++ [LF]]).
  - apply (proj2 (clean_content_tidy
                    [[LF] ++ of_ascii "## a" ++ [LF];
                     [LF] ++ of_ascii "b" ++ [LF]]) 35%N).
    left. reflexivity.
Defined.

(** X16.  The substitution [re.sub(r"\n{3,}", "\n\n", s)] touches
    newlines only: with every newline taken out, its result and [s] are
    the same text; and a text without three newlines in a row is
    returned as it is. *)
Theorem sub_newlines_keeps_text (s : str) :
  List.filter (λ c, negb (c =? LF)%N) (sub_newlines 0 s)
  = List.filter (λ c, negb (c =? LF)%N) s
  ∧ (absent [LF; LF; LF] s → sub_newlines 0 s = s).
Proof.
  split; [apply sub_newlines_filter|]. intros Hs.
  by apply (sub_newlines_id s 0).
Qed.

Lemma sub_newlines_keeps_text_witness :
  sub_newlines 0 (of_ascii "a" ++ [LF; LF] ++ of_ascii "b")
  = of_ascii "a" ++ [LF; LF] ++ of_ascii "b".
Proof.
  apply (proj2 (sub_newlines_keeps_text
                  (of_ascii "a" ++ [LF; LF] ++ of_ascii "b"))).
  intros j. apply find_None. reflexivity.
Defined.

End CleanFacts.

(** ** A diff section that holds the entry separator *)

Section SeparatorFacts.

(** A newline always ends a line: the lines of a text with a newline in
    it are lines that end with that newline, then the lines of the
    rest. *)
Lemma splitlines_from_LF (x y : str) :
  ∀ cur, ∃ (done : list str) (l : str),
    splitlines_from cur (x ++ LF :: y)
    = done ++ [l ++ [LF]] ++ splitlines_from [] y.
Proof.
  induction x as [x IH] using (induction_ltof1 _ (@length N)).
  unfold ltof in IH. intros cur. destruct x as [|c x].
  - exists [], (rev cur). reflexivity.
  - cbn [app splitlines_from]. destruct (c =? CR)%N eqn:Ecr.
    + destruct x as [|d x].
      * exists [], (rev cur ++ [c]). cbn [app rev N.eqb].
        change (LF =? LF)%N with true. cbn [app]. by rewrite <- !app_assoc.
      * cbn [app]. destruct (d =? LF)%N.
        -- destruct (IH x ltac:(simpl; lia) []) as (dn & l & ->).
           by exists (rev (d :: c :: cur) :: dn), l.
        -- destruct (IH (d :: x) ltac:(simpl; lia) []) as (dn & l & Heq).
           cbn [app] in Heq. rewrite Heq.
           by exists (rev (c :: cur) :: dn), l.
    + destruct (is_linebreak c).
      * destruct (IH x ltac:(simpl; lia) []) as (dn & l & ->).
        by exists (rev (c :: cur) :: dn), l.
      * destruct (IH x ltac:(simpl; lia) (c :: cur)) as (dn & l & ->).
        by exists dn, l.
Qed.

(** A text in which [sub] occurs contains it. *)
Lemma contains_app (u sub v : str) : contains (u ++ sub ++ v) sub = true.
Proof.
  unfold contains. destruct (find (u ++ sub ++ v) sub) eqn:E; [done|].
  pose proof (find_None _ _ E (length u)) as Hno.
  rewrite drop_app_length in Hno. by rewrite startswith_app in Hno.
Qed.

(** A removed last line [--] gives a section with the separator in
    it. *)
Lemma build_diff_markdown_separator (p title : str) :
  ∃ text,
    build_diff_markdown (p ++ [LF] ++ of_ascii "--" ++ [LF]) [] title
    = Some text
    ∧ contains text ENTRY_SEPARATOR = true.
Proof.
  assert (∃ (dn : list str) (l : str),
            splitlines (p ++ [LF] ++ of_ascii "--" ++ [LF])
            = dn ++ [l ++ [LF]] ++ [of_ascii "--" ++ [LF]])
    as (dn & l & Hlines).
  { destruct (splitlines_from_LF p (of_ascii "--" ++ [LF]) [])
      as (dn & l & Heq).
    exists dn, l. exact Heq. }
  rewrite build_diff_markdown_no_new by by destruct p.
  generalize (Difflib._format_range_unified 0
                (length (splitlines (p ++ [LF] ++ of_ascii "--" ++ [LF])))).
  intros range. rewrite Hlines. eexists. split; [done|].
  rewrite !fmap_app, !concat_app. cbn [fmap list_fmap concat].
  rewrite app_nil_r.
  replace (HEADING ++ title ++ [LF; LF] ++ FENCE_OPEN ++ [LF]
           ++ (of_ascii "--- " ++ FROMFILE) ++ (of_ascii "+++ " ++ TOFILE)
           ++ (of_ascii "@@ -" ++ range ++ of_ascii " +0,0 @@")
           ++ (concat ((λ line, of_ascii "-" ++ line) <$> dn)
               ++ (of_ascii "-" ++ l ++ [LF])
               ++ (of_ascii "-" ++ of_ascii "--" ++ [LF]))
           ++ [LF] ++ FENCE_CLOSE ++ [LF])
    with ((HEADING ++ title ++ [LF; LF] ++ FENCE_OPEN ++ [LF]
           ++ (of_ascii "--- " ++ FROMFILE) ++ (of_ascii "+++ " ++ TOFILE)
           ++ (of_ascii "@@ -" ++ range ++ of_ascii " +0,0 @@")
           ++ concat ((λ line, of_ascii "-" ++ line) <$> dn)
           ++ of_ascii "-" ++ l)
          ++ ENTRY_SEPARATOR ++ (FENCE_CLOSE ++ [LF])).
  - apply contains_app.
  - rewrite <- !app_assoc. reflexivity.
Qed.

(** X17.  The diff section of a change can hold the entry separator.
    When the old text ends with a line ["--"] that follows a newline, and
    the new text is empty, the removed line is shown as ["---"] and is
    followed by the blank line before the closing fence: the section
    contains ["\n---\n\n"], for every start of the old text and every
    title. *)
Theorem diff_section_with_separator (p title : str) :
  ∃ text,
    build_diff_markdown (p ++ [LF] ++ of_ascii "--" ++ [LF]) [] title
    = Some text
    ∧ contains text ENTRY_SEPARATOR = true.
Proof. apply build_diff_markdown_separator. Qed.

End SeparatorFacts.

(** ** An entry the changelog does not give back *)

Section LostEntryFacts.

Lemma contains_true_split (s sub : str) :
  contains s sub = true → ∃ u v, s = u ++ sub ++ v.
Proof.
  unfold contains. destruct (find s sub) as [i|] eqn:E; [|done].
  intros _. eexists _, _. by apply find_Some_split.
Qed.

(** An entry built from a first section that holds the separator holds
    it too. *)
Lemma build_new_entry_separator now first (dg dc : str) :
  contains dg ENTRY_SEPARATOR = true →
  contains (build_new_entry now first dg dc) ENTRY_SEPARATOR = true.
Proof.
  intros Hdg. destruct (contains_true_split _ _ Hdg) as (u & v & ->).
  unfold build_new_entry, str_or.
  assert (truthy (u ++ ENTRY_SEPARATOR ++ v) = true) as ->
    by by destruct u.
  set (note := if first then FIRST_RUN_NOTE else []).
  replace (of_ascii "## " ++ now ++ of_ascii " " ++ note ++ [LF; LF]
           ++ (u ++ ENTRY_SEPARATOR ++ v) ++ [LF]
           ++ (if truthy dc then dc else COPILOT_UNCHANGED))
    with ((of_ascii "## " ++ now ++ of_ascii " " ++ note ++ [LF; LF] ++ u)
          ++ ENTRY_SEPARATOR
          ++ (v ++ [LF] ++ (if truthy dc then dc else COPILOT_UNCHANGED))).
  - apply contains_app.
  - by rewrite <- !app_assoc.
Qed.

(** X18.  [main] can write an entry that it does not read back.  When
    the cached Gemini text ends with a line ["--"] after a newline, the
    page fetched now is empty and the changelog can be read, the run
    hands to the changelog file a text with a new entry that holds the
    entry separator (the file holds that text, or is left empty if the
    text cannot be encoded); parsing that text, as written or as read
    back with its ends of lines translated, does not give the entry
    among its entries: every entry the parser returns is free of the
    separator. *)
Theorem main_entry_not_read_back (e : env) (fs : files) cache existing
    (p c : str) :
  truthy (GEMINI_API_KEY e) = true →
  load_cache fs = Some cache →
  read_text (changelog_file fs) = Some existing →
  cache_get cache "gemini_cli" = p ++ [LF] ++ of_ascii "--" ++ [LF] →
  fetch_gemini_cli_docs e = Some [] →
  fetch_github_copilot_docs e = Some c →
  ∃ out fs' dg dc,
    build_diff_markdown (p ++ [LF] ++ of_ascii "--" ++ [LF]) [] GEMINI_TITLE
    = Some dg
    ∧ build_diff_markdown (cache_get cache "github_copilot") c
        COPILOT_TITLE = Some dc
    ∧ main e fs = Some (out, fs')
    ∧ changelog_file fs'
      = Holds
          (if encodable
                (update_changelog (CHANGELOG_MAX_ENTRIES e) existing
                   (build_new_entry (now_str e)
                      (bool_decide (cache = ∅)) dg dc))
           then update_changelog (CHANGELOG_MAX_ENTRIES e) existing
                  (build_new_entry (now_str e)
                     (bool_decide (cache = ∅)) dg dc)
           else [])
    ∧ contains (build_new_entry (now_str e)
                  (bool_decide (cache = ∅)) dg dc)
        ENTRY_SEPARATOR = true
    ∧ (build_new_entry (now_str e) (bool_decide (cache = ∅)) dg dc
       ∉ (parse_changelog
            (update_changelog (CHANGELOG_MAX_ENTRIES e) existing
               (build_new_entry (now_str e)
                  (bool_decide (cache = ∅)) dg dc))).2)
    ∧ (build_new_entry (now_str e) (bool_decide (cache = ∅)) dg dc
       ∉ (parse_changelog
            (universal_newlines
               (update_changelog (CHANGELOG_MAX_ENTRIES e) existing
                  (build_new_entry (now_str e)
                     (bool_decide (cache = ∅)) dg dc)))).2).
Proof.
  intros Hkey Hload Hread Hcache Hg Hc.
  destruct (main_changed_sources e fs cache existing [] c
              Hkey Hload Hg Hc)
    as (dg & dc & Hdg & Hdc & _ & _ & Hmain); [|done|].
  { left. rewrite Hcache. by destruct p. }
  rewrite Hcache in Hdg.
  destruct (build_diff_markdown_separator p GEMINI_TITLE)
    as (text & Htext & Hsep).
  assert (dg = text) as -> by congruence.
  pose proof (build_new_entry_separator (now_str e)
                (bool_decide (cache = ∅)) text dc Hsep) as Hentry.
  assert (∀ content,
    build_new_entry (now_str e) (bool_decide (cache = ∅)) text dc
    ∉ (parse_changelog content).2) as Hlost.
  { intros content Hin.
    pose proof (parse_changelog_clean content) as Hclean.
    rewrite Forall_forall in Hclean. apply Hclean in Hin as [Hno _].
    congruence. }
  rewrite Hmain. cbv zeta.
  set (written := update_changelog (CHANGELOG_MAX_ENTRIES e) existing
                    (build_new_entry (now_str e) (bool_decide (cache = ∅))
                       text dc)).
  match goal with |- context [Some ?run = Some _] =>
    assert (∃ out fs',
              run = (out, fs')
              ∧ changelog_file fs'
                = Holds (if encodable written then written else []))
      as (out & fs' & -> & Hfile)
  end.
  { destruct (encodable written); [|by eexists _, _].
    destruct (encodable [] && encodable c); [|by eexists _, _].
    destruct (translate_with_gemini e [] GEMINI_TITLE) as [gt|];
      [|by eexists _, _].
    destruct (translate_with_gemini e c COPILOT_TITLE) as [ct|];
      [|by eexists _, _].
    destruct (encodable (output_text (now_str e) gt ct)); by eexists _, _. }
  exists out, fs', text, dc. split_and!; done.
Qed.

Lemma main_entry_not_read_back_witness :
  ∃ out fs' dg dc,
    build_diff_markdown (of_ascii "a" ++ [LF] ++ of_ascii "--" ++ [LF]) [] GEMINI_TITLE
    = Some dg
    ∧ build_diff_markdown (cache_get ({[ "gemini_cli" := of_ascii "a" ++ [LF] ++ of_ascii "--" ++ [LF] ]} : gmap string str) "github_copilot") []
        COPILOT_TITLE = Some dc
    ∧ main (Env (of_ascii "key") 10 (of_ascii "2026-01-01 00:00 UTC")
            (Some []) (Some []) (λ _ _, None)) (Files (Holds {[ "gemini_cli" :=
                            of_ascii "a" ++ [LF] ++ of_ascii "--" ++ [LF] ]})
            Missing Missing) = Some (out, fs')
    ∧ changelog_file fs'
      = Holds
          (if encodable
                (update_changelog (CHANGELOG_MAX_ENTRIES (Env (of_ascii "key") 10 (of_ascii "2026-01-01 00:00 UTC")
            (Some []) (Some []) (λ _ _, None))) None
                   (build_new_entry (now_str (Env (of_ascii "key") 10 (of_ascii "2026-01-01 00:00 UTC")
            (Some []) (Some []) (λ _ _, None)))
                      (bool_decide (({[ "gemini_cli" := of_ascii "a" ++ [LF] ++ of_ascii "--" ++ [LF] ]} : gmap string str) = ∅)) dg dc))
           then update_changelog (CHANGELOG_MAX_ENTRIES (Env (of_ascii "key") 10 (of_ascii "2026-01-01 00:00 UTC")
            (Some []) (Some []) (λ _ _, None))) None
                  (build_new_entry (now_str (Env (of_ascii "key") 10 (of_ascii "2026-01-01 00:00 UTC")
            (Some []) (Some []) (λ _ _, None)))
                     (bool_decide (({[ "gemini_cli" := of_ascii "a" ++ [LF] ++ of_ascii "--" ++ [LF] ]} : gmap string str) = ∅)) dg dc)
           else [])
    ∧ contains (build_new_entry (now_str (Env (of_ascii "key") 10 (of_ascii "2026-01-01 00:00 UTC")
            (Some []) (Some []) (λ _ _, None)))
                  (bool_decide (({[ "gemini_cli" := of_ascii "a" ++ [LF] ++ of_ascii "--" ++ [LF] ]} : gmap string str) = ∅)) dg dc)
        ENTRY_SEPARATOR = true
    ∧ (build_new_entry (now_str (Env (of_ascii "key") 10 (of_ascii "2026-01-01 00:00 UTC")
            (Some []) (Some []) (λ _ _, None))) (bool_decide (({[ "gemini_cli" := of_ascii "a" ++ [LF] ++ of_ascii "--" ++ [LF] ]} : gmap string str) = ∅)) dg dc
       ∉ (parse_changelog
            (update_changelog (CHANGELOG_MAX_ENTRIES (Env (of_ascii "key") 10 (of_ascii "2026-01-01 00:00 UTC")
            (Some []) (Some []) (λ _ _, None))) None
               (build_new_entry (now_str (Env (of_ascii "key") 10 (of_ascii "2026-01-01 00:00 UTC")
            (Some []) (Some []) (λ _ _, None)))
                  (bool_decide (({[ "gemini_cli" := of_ascii "a" ++ [LF] ++ of_ascii "--" ++ [LF] ]} : gmap string str) = ∅)) dg dc))).2)
    ∧ (build_new_entry (now_str (Env (of_ascii "key") 10 (of_ascii "2026-01-01 00:00 UTC")
            (Some []) (Some []) (λ _ _, None))) (bool_decide (({[ "gemini_cli" := of_ascii "a" ++ [LF] ++ of_ascii "--" ++ [LF] ]} : gmap string str) = ∅)) dg dc
       ∉ (parse_changelog
            (universal_newlines
               (update_changelog (CHANGELOG_MAX_ENTRIES (Env (of_ascii "key") 10 (of_ascii "2026-01-01 00:00 UTC")
            (Some []) (Some []) (λ _ _, None))) None
                  (build_new_entry (now_str (Env (of_ascii "key") 10 (of_ascii "2026-01-01 00:00 UTC")
            (Some []) (Some []) (λ _ _, None)))
                     (bool_decide (({[ "gemini_cli" := of_ascii "a" ++ [LF] ++ of_ascii "--" ++ [LF] ]} : gmap string str) = ∅)) dg dc)))).2).
Proof.
  apply (main_entry_not_read_back
           (Env (of_ascii "key") 10 (of_ascii "2026-01-01 00:00 UTC")
            (Some []) (Some []) (λ _ _, None))
           (Files (Holds {[ "gemini_cli" :=
                            of_ascii "a" ++ [LF] ++ of_ascii "--" ++ [LF] ]})
            Missing Missing)
           ({[ "gemini_cli" := of_ascii "a" ++ [LF] ++ of_ascii "--" ++ [LF] ]} : gmap string str) None
           (of_ascii "a") []).
  - reflexivity.
  - reflexivity.
  - reflexivity.
  - vm_compute. reflexivity.
  - reflexivity.
  - reflexivity.
Defined.

End LostEntryFacts.

(** ** The matching blocks of [difflib] *)

Section BlocksFacts.
Context `{Countable A}.

(** X19.  [SequenceMatcher(None, a, b).get_matching_blocks()], which
    [unified_diff] calls for the two lists of lines, ends for every [a]
    and [b] and returns triples [(i, j, n)] that are true matches
    ([a[i:i+n] == b[j:j+n]], inside both lists), each starting in [a]
    and in [b] at or after the end of the one before, the last one being
    the sentinel [(len(a), len(b), 0)]. *)
Theorem matching_blocks_sound (a b : list A) :
  ∃ blocks,
    Difflib.get_matching_blocks (Difflib.SequenceMatcher a b) = Some blocks
    ∧ tiling a b 0 0 blocks
    ∧ last blocks = Some (length a, length b, 0).
Proof. apply get_matching_blocks_tiling. Qed.

End BlocksFacts.
